(** * transcription-tool: the transcript parser, the speaker scan, the
      document body and the transcribe command

    A shallow embedding of [format-gmr.js] and of the transcribe script.
    JavaScript strings are sequences of UTF-16 code units; a code unit is
    modelled as an [N] and a string as a list of them.  The two regular
    expressions of [format-gmr.js] are written with backtracking
    combinators that follow the ECMAScript matcher: alternatives are tried
    in the order the engine tries them and the first success wins. *)

From Stdlib Require Import List NArith Bool Arith Lia.
From Stdlib Require Import Ascii String.
From Stdlib Require Import Sorting.Sorted Sorting.Permutation.
Import ListNotations.

Set Implicit Arguments.

(** ** Strings *)

Definition char := N.
Definition str := list char.

(** A literal of the source, written as a Rocq string of ASCII characters. *)
Definition lit (s : string) : str :=
  map N_of_ascii (list_ascii_of_string s).

Definition LF : char := 10%N.
Definition TAB : char := 9%N.
Definition SP : char := 32%N.
Definition LP : char := 40%N.
Definition RP : char := 41%N.

(** ECMAScript LineTerminator: the code units [.] does not match. *)
Definition is_line_terminator (c : char) : bool :=
  (c =? 10)%N || (c =? 13)%N || (c =? 8232)%N || (c =? 8233)%N.

(** ECMAScript WhiteSpace and LineTerminator: what [\s] matches and what
    [String.prototype.trim] strips. *)
Definition is_space (c : char) : bool :=
  ((9 <=? c) && (c <=? 13))%N
  || (c =? 32)%N || (c =? 160)%N || (c =? 5760)%N
  || ((8192 <=? c) && (c <=? 8202))%N
  || (c =? 8232)%N || (c =? 8233)%N || (c =? 8239)%N
  || (c =? 8287)%N || (c =? 12288)%N || (c =? 65279)%N.

Fixpoint dropWhile (p : char -> bool) (s : str) : str :=
  match s with
  | [] => []
  | c :: s' => if p c then dropWhile p s' else s
  end.

Definition trimStart (s : str) : str := dropWhile is_space s.
Definition trimEnd (s : str) : str := rev (dropWhile is_space (rev s)).

(** [String.prototype.trim] *)
Definition trim (s : str) : str := trimEnd (trimStart s).

(** [text.split('\n')]: the empty string gives one empty line. *)
Fixpoint split_lines (s : str) : list str :=
  match s with
  | [] => [[]]
  | c :: s' =>
      if (c =? LF)%N then [] :: split_lines s'
      else match split_lines s' with
           | l :: ls => (c :: l) :: ls
           | [] => [[c]]
           end
  end.

(** [Array.prototype.join] *)
Fixpoint join (sep : str) (l : list str) : str :=
  match l with
  | [] => []
  | [x] => x
  | x :: rest => x ++ sep ++ join sep rest
  end.

(** JavaScript truthiness of a string: the empty string is falsy. *)
Definition truthy (s : str) : bool :=
  match s with [] => false | _ => true end.

(** [String.prototype.includes] for a one-character needle. *)
Definition includes (c : char) (s : str) : bool :=
  existsb (fun d => (d =? c)%N) s.

(** ** Backtracking combinators for the two patterns

    Each combinator takes the input left to match and a continuation for
    the rest of the pattern; the continuation receives what the piece
    matched (for the capture groups) and the remaining input. *)

Section Backtracking.
Variable A : Type.

(** [x+?]: one character first, then one more each time the rest of the
    pattern fails. *)
Fixpoint lazy_plus (p : char -> bool) (s : str)
    (k : str -> str -> option A) : option A :=
  match s with
  | [] => None
  | c :: s' =>
      if p c then
        match k [c] s' with
        | Some a => Some a
        | None => lazy_plus p s' (fun m r => k (c :: m) r)
        end
      else None
  end.

(** [x*]: as many characters as possible first, then one fewer each
    time the rest of the pattern fails. *)
Fixpoint greedy_star (p : char -> bool) (s : str)
    (k : str -> str -> option A) : option A :=
  match s with
  | [] => k [] s
  | c :: s' =>
      if p c then
        match greedy_star p s' (fun m r => k (c :: m) r) with
        | Some a => Some a
        | None => k [] s
        end
      else k [] s
  end.

(** [x+] *)
Definition greedy_plus (p : char -> bool) (s : str)
    (k : str -> str -> option A) : option A :=
  match s with
  | [] => None
  | c :: s' =>
      if p c then greedy_star p s' (fun m r => k (c :: m) r) else None
  end.

(** A literal character. *)
Definition one_char (c : char) (s : str) (k : str -> option A) : option A :=
  match s with
  | [] => None
  | d :: s' => if (d =? c)%N then k s' else None
  end.

(** [$] without the [m] flag: only the end of the input. *)
Definition at_end (s : str) (a : A) : option A :=
  match s with
  | [] => Some a
  | _ :: _ => None
  end.
End Backtracking.

Definition not_line_terminator (c : char) : bool := negb (is_line_terminator c).
Definition not_RP (c : char) : bool := negb (c =? RP)%N.

(** The part of [/^(.+?)\s*\(([^)]+)\)$/] after group 1; the result is
    group 2. *)
Definition label_tail (r : str) : option str :=
  greedy_star is_space r (fun _ r1 =>
  one_char LP r1 (fun r2 =>
  greedy_plus not_RP r2 (fun g2 r3 =>
  one_char RP r3 (fun r4 =>
  at_end r4 g2)))).

(** [trimmed.match(/^(.+?)\s*\(([^)]+)\)$/)]: [None] for [null], else
    groups 1 and 2.  The pattern starts with [^] and has no [g] or [m]
    flag, so the only start position is the beginning of the string. *)
Definition speakerMatch (trimmed : str) : option (str * str) :=
  lazy_plus not_line_terminator trimmed (fun g1 r =>
    match label_tail r with
    | Some g2 => Some (g1, g2)
    | None => None
    end).

(** ** parseTranscript *)

Record Segment : Type := mkSegment { speaker : str; text : str }.

(** The three variables the loop of [parseTranscript] updates. *)
Record ParseState : Type := mkParseState {
  segments : list Segment;
  currentSpeaker : option str;
  currentText : str
}.

Definition initialState : ParseState :=
  {| segments := []; currentSpeaker := None; currentText := [] |}.

(** [if (currentSpeaker && currentText) segments.push(...)], as the
    segment array after it. *)
Definition flush (st : ParseState) : list Segment :=
  match currentSpeaker st with
  | Some sp =>
      if truthy sp && truthy (currentText st)
      then segments st ++ [{| speaker := sp; text := trim (currentText st) |}]
      else segments st
  | None => segments st
  end.

(** One iteration of the [for (const line of lines)] loop. *)
Definition step (st : ParseState) (line : str) : ParseState :=
  let trimmed := trim line in
  if negb (truthy trimmed) then st
  else
    match speakerMatch trimmed with
    | Some (g1, g2) =>
        {| segments := flush st; currentSpeaker := Some g2; currentText := g1 |}
    | None =>
        {| segments := segments st;
           currentSpeaker := currentSpeaker st;
           currentText := currentText st ++ SP :: trimmed |}
    end.

Definition parseLines (lines : list str) : list Segment :=
  flush (fold_left step lines initialState).

Definition parseTranscript (text : str) : list Segment :=
  parseLines (split_lines text).

(** ** extractSpeakers *)

(** [/\(([^)]+)\)/] tried at the beginning of [s]: group 1 and the input
    after the match. *)
Definition speakerPattern (s : str) : option (str * str) :=
  one_char LP s (fun r1 =>
  greedy_plus not_RP r1 (fun g r2 =>
  one_char RP r2 (fun r3 =>
  Some (g, r3)))).

(** [speakerPattern.exec(text)] with the [g] flag, on the text from
    [lastIndex] on: the first start position at which the pattern matches.
    The input after the match is the text from the new [lastIndex] on. *)
Fixpoint exec (s : str) : option (str * str) :=
  match speakerPattern s with
  | Some m => Some m
  | None =>
      match s with
      | [] => None
      | _ :: s' => exec s'
      end
  end.

Fixpoint str_eqb (a b : str) : bool :=
  match a, b with
  | [], [] => true
  | x :: a', y :: b' => (x =? y)%N && str_eqb a' b'
  | _, _ => false
  end.

(** [Set.prototype.add] on a [Set] kept in insertion order. *)
Definition set_add (x : str) (s : list str) : list str :=
  if existsb (str_eqb x) s then s else s ++ [x].

(** The body of the [while] loop for one captured span. *)
Definition addSpeaker (speakers : list str) (speaker : str) : list str :=
  if truthy speaker && negb (includes SP speaker)
  then set_add speaker speakers
  else speakers.

(** The [while ((match = speakerPattern.exec(text)) !== null)] loop.  Every
    match consumes at least three characters, so [length text] plus one
    rounds are enough. *)
Fixpoint collect (fuel : nat) (s : str) (speakers : list str) : list str :=
  match fuel with
  | O => speakers
  | S fuel' =>
      match exec s with
      | None => speakers
      | Some (speaker, rest) =>
          collect fuel' rest (addSpeaker speakers speaker)
      end
  end.

(** The comparison [Array.prototype.sort] uses without a comparator:
    strings by their code units, a proper prefix first. *)
Fixpoint str_compare (a b : str) : comparison :=
  match a, b with
  | [], [] => Eq
  | [], _ :: _ => Lt
  | _ :: _, [] => Gt
  | x :: a', y :: b' =>
      match (x ?= y)%N with
      | Eq => str_compare a' b'
      | c => c
      end
  end.

Definition str_leb (a b : str) : bool :=
  match str_compare a b with
  | Gt => false
  | _ => true
  end.

Definition str_lt (a b : str) : Prop := str_compare a b = Lt.

Fixpoint insert (x : str) (l : list str) : list str :=
  match l with
  | [] => [x]
  | y :: l' => if str_leb x y then x :: l else y :: insert x l'
  end.

(** [Array.prototype.sort()].  The engine's algorithm is not fixed by the
    language; on strings under a total order every sort gives the same
    array, here computed by insertion. *)
Definition sort (l : list str) : list str := fold_right insert [] l.

(** [Array.from(speakers).sort()] *)
Definition speakerList (text : str) : list str :=
  sort (collect (S (List.length text)) text []).

Definition extractSpeakers (text : str) : str :=
  join (lit ", ") (speakerList text).

(** ** The document *)

Inductive AlignmentType : Type := CENTER | BOTH.

Record Font : Type := mkFont { font_name : str; font_size : N }.

Definition timesNewRoman24 : Font :=
  {| font_name := lit "Times New Roman"; font_size := 24 |}.

(** A [BorderStyle.SINGLE] rule. *)
Record BorderRule : Type := mkBorderRule {
  border_color : str;
  border_space : N;
  border_size : N
}.

Inductive Border : Type :=
  | NoBorder
  | BorderBottom (r : BorderRule)
  | BorderTop (r : BorderRule).

Definition blackRule : BorderRule :=
  {| border_color := lit "000000"; border_space := 1; border_size := 12 |}.

Record TextRun : Type := mkTextRun {
  run_text : str;
  run_bold : bool;
  run_font : option Font;
  run_color : option str;
  run_underline : bool
}.

(** The options object given to [new Paragraph]. *)
Record Paragraph : Type := mkParagraph {
  par_text : option str;
  par_alignment : option AlignmentType;
  par_bold : bool;
  par_font : option Font;
  par_border : Border;
  par_children : list TextRun
}.

(** The page margins in twips, [convertInchesToTwip] of 1.25 and 0.5. *)
Record Margin : Type := mkMargin {
  margin_top : N; margin_bottom : N; margin_left : N; margin_right : N
}.

(** The one section of the [Document]. *)
Record Document : Type := mkDocument {
  doc_margin : Margin;
  doc_header : list Paragraph;
  doc_footer : list Paragraph;
  doc_children : list Paragraph
}.

Definition plainRun (t : str) : TextRun :=
  {| run_text := t; run_bold := false; run_font := Some timesNewRoman24;
     run_color := None; run_underline := false |}.

Definition boldRun (t : str) : TextRun :=
  {| run_text := t; run_bold := true; run_font := Some timesNewRoman24;
     run_color := None; run_underline := false |}.

Definition runsParagraph (a : option AlignmentType) (b : Border)
    (runs : list TextRun) : Paragraph :=
  {| par_text := None; par_alignment := a; par_bold := false;
     par_font := None; par_border := b; par_children := runs |}.

(** [new Paragraph({ text: '' })] *)
Definition blankParagraph : Paragraph :=
  {| par_text := Some []; par_alignment := None; par_bold := false;
     par_font := None; par_border := NoBorder; par_children := [] |}.

Definition headerParagraph (t : str) (b : Border) : Paragraph :=
  {| par_text := Some t; par_alignment := Some CENTER; par_bold := true;
     par_font := Some timesNewRoman24; par_border := b; par_children := [] |}.

(** The paragraph [segments.map] builds for one segment. *)
Definition segmentParagraph (segment : Segment) : Paragraph :=
  runsParagraph (Some BOTH) NoBorder
    [ boldRun (speaker segment ++ lit ":" ++ [TAB]);
      plainRun (text segment) ].

(** [new Document({ sections: [{ ... }] })] as a function of the four
    values of the script it is built from. *)
Definition doc (baseFilename speakers duration : str)
    (segments : list Segment) : Document :=
  {| doc_margin :=
       {| margin_top := 1800; margin_bottom := 1800;
          margin_left := 720; margin_right := 720 |};
     doc_header :=
       [ headerParagraph baseFilename NoBorder;
         headerParagraph speakers (BorderBottom blackRule) ];
     doc_footer :=
       [ runsParagraph (Some CENTER) (BorderTop blackRule)
           [ {| run_text := lit "www.gmrtranscription.com"; run_bold := false;
                run_font := Some timesNewRoman24;
                run_color := Some (lit "0000FF"); run_underline := true |};
             plainRun (lit " -") ] ];
     doc_children :=
       map segmentParagraph segments
       ++ [ blankParagraph;
            runsParagraph None NoBorder [boldRun (lit "[End of Audio]")];
            blankParagraph;
            runsParagraph None NoBorder
              [boldRun (lit "Duration: " ++ duration ++ lit " minutes")] ] |}.

(** The characters a paragraph shows: its [text] option, then its runs. *)
Definition paragraph_content (p : Paragraph) : str :=
  match par_text p with
  | Some t => t
  | None => []
  end ++ List.concat (map run_text (par_children p)).

(** ** The transcribe command *)

(** What the script reads from Node and from the operating system: the
    command line, the answers of [fs] and [path], and what [exec] hands to
    its callback when the whisper subprocess has ended.  The calls of [fs]
    are taken to return normally. *)
Record Node : Type := mkNode {
  argv2 : option str;              (* process.argv[2]; None for undefined *)
  audioDirExists : bool;           (* fs.existsSync(audioDir) *)
  transcriptsDirExists : bool;     (* fs.existsSync(transcriptsDir) *)
  audioFileExists : str -> bool;   (* fs.existsSync(path.join(audioDir, name)) *)
  audioDirEntries : list str;      (* fs.readdirSync(audioDir) *)
  basenameNoExt : str -> str;      (* path.basename(f, path.extname(f)) *)
  execError : option str;          (* error.message; None for a null error *)
  execStdout : str;
  execStderr : str
}.

Inductive Stream : Type := ConsoleLog | ConsoleError.

(** The lines the script prints, one constructor for each call of
    [console.log] and [console.error], with the values it interpolates. *)
Inductive Message : Type :=
  | CreatedAudioDir
  | CreatedTranscriptsDir
  | ProvideFileName
  | Usage
  | UsageExample
  | PlaceAudioFiles
  | TranscriptsSavedTo
  | FileNotFound (audioFileName : str)
  | MakeSureInFolder
  | AvailableFiles
  | FileEntry (f : str)
  | FolderEmpty
  | BlankLine
  | StartingTranscription
  | InputIs (audioFileName : str)
  | OutputIs (fileName : str)
  | MayTakeMinutes
  | TranscriptionFailed (message : str)
  | Raw (s : str)
  | TranscriptionComplete
  | TextOutput (fileName : str)
  | TimestampedOutput (fileName : str)
  | NextSteps
  | NextStep (n : N).

Inductive Directory : Type := AudioDir | TranscriptsDir.

(** What a run does to the outside, in order. *)
Inductive Effect : Type :=
  | Print (s : Stream) (m : Message)
  | MkdirSync (d : Directory)
  | ExecWhisper (audioFileName : str).

(** A running script either goes on or has called [process.exit]. *)
Inductive Run (A : Type) : Type :=
  | Continue (a : A)
  | Exited (code : N).
Arguments Exited {A} code.

(** A piece of the script: it adds to the effects so far. *)
Definition Proc (A : Type) : Type := list Effect -> list Effect * Run A.

Definition ret {A : Type} (a : A) : Proc A := fun tr => (tr, Continue a).

Definition bind {A B : Type} (m : Proc A) (k : A -> Proc B) : Proc B :=
  fun tr =>
    match m tr with
    | (tr', Continue a) => k a tr'
    | (tr', Exited code) => (tr', Exited code)
    end.

Notation "x <- m ;; k" := (bind m (fun x => k))
  (at level 61, m at next level, right associativity).
Notation "m ;; k" := (bind m (fun _ => k))
  (at level 61, right associativity).

Definition effect (e : Effect) : Proc unit :=
  fun tr => (tr ++ [e], Continue tt).

Definition console_log (m : Message) : Proc unit := effect (Print ConsoleLog m).
Definition console_error (m : Message) : Proc unit := effect (Print ConsoleError m).
Definition mkdirSync (d : Directory) : Proc unit := effect (MkdirSync d).

Definition process_exit {A : Type} (code : N) : Proc A :=
  fun tr => (tr, Exited code).

Definition when (b : bool) (m : Proc unit) : Proc unit :=
  if b then m else ret tt.

Fixpoint forEach {A : Type} (l : list A) (f : A -> Proc unit) : Proc unit :=
  match l with
  | [] => ret tt
  | x :: l' => f x ;; forEach l' f
  end.

(** [f.startsWith('.')] *)
Definition startsWithDot (f : str) : bool :=
  match f with
  | c :: _ => (c =? 46)%N
  | [] => false
  end.

(** [!audioFileName] is false: the argument is there and is not empty. *)
Definition argumentGiven (w : Node) : bool :=
  match argv2 w with
  | Some audioFileName => truthy audioFileName
  | None => false
  end.

(** The statements of the script down to the call of [exec], which starts
    whisper on the audio file and returns at once; the value is
    [fileName], which the callback uses. *)
Definition script (w : Node) : Proc str :=
  when (negb (audioDirExists w))
    (mkdirSync AudioDir ;; console_log CreatedAudioDir) ;;
  when (negb (transcriptsDirExists w))
    (mkdirSync TranscriptsDir ;; console_log CreatedTranscriptsDir) ;;
  match argv2 w with
  | None | Some [] =>
      console_error ProvideFileName ;;
      console_log Usage ;;
      console_log UsageExample ;;
      console_log PlaceAudioFiles ;;
      console_log TranscriptsSavedTo ;;
      process_exit 1
  | Some audioFileName =>
      when (negb (audioFileExists w audioFileName))
        (console_error (FileNotFound audioFileName) ;;
         console_log MakeSureInFolder ;;
         (let files := filter (fun f => negb (startsWithDot f))
                         (audioDirEntries w) in
          if (0 <? List.length files)%nat
          then console_log AvailableFiles ;;
               forEach files (fun f => console_log (FileEntry f))
          else console_log FolderEmpty) ;;
         console_log BlankLine ;;
         process_exit 1) ;;
      let fileName := basenameNoExt w audioFileName in
      console_log StartingTranscription ;;
      console_log (InputIs audioFileName) ;;
      console_log (OutputIs fileName) ;;
      console_log MayTakeMinutes ;;
      effect (ExecWhisper audioFileName) ;;
      ret fileName
  end.

(** The callback given to [exec], run when the subprocess has ended. *)
Definition callback (w : Node) (fileName : str) : Proc unit :=
  match execError w with
  | Some message => console_error (TranscriptionFailed message)
  | None =>
      when (truthy (execStderr w)) (console_log (Raw (execStderr w))) ;;
      console_log (Raw (execStdout w)) ;;
      console_log TranscriptionComplete ;;
      console_log (TextOutput fileName) ;;
      console_log (TimestampedOutput fileName) ;;
      console_log NextSteps ;;
      console_log (NextStep 1) ;;
      console_log (NextStep 2) ;;
      console_log (NextStep 3) ;;
      console_log (NextStep 4)
  end.

(** A whole run: its effects and the exit code of the process, 0 when
    nothing called [process.exit]. *)
Definition transcribe (w : Node) : list Effect * N :=
  match (fileName <- script w ;; callback w fileName) [] with
  | (tr, Continue _) => (tr, 0%N)
  | (tr, Exited code) => (tr, code)
  end.

Definition trace (w : Node) : list Effect := fst (transcribe w).
Definition exitCode (w : Node) : N := snd (transcribe w).

(** ** The format command

    The statements of [format-gmr.js] around [extractSpeakers],
    [parseTranscript] and [doc]. *)

(** [s.startsWith(p)] *)
Fixpoint startsWith (p s : str) : bool :=
  match p, s with
  | [], _ => true
  | _ :: _, [] => false
  | x :: p', y :: s' => (x =? y)%N && startsWith p' s'
  end.

(** [s.replace(pat, '')] for a string [pat]: the first occurrence of
    [pat] is taken out. *)
Fixpoint removeFirst (pat s : str) : str :=
  match s with
  | [] => []
  | c :: s' =>
      if startsWith pat s then skipn (List.length pat) s
      else c :: removeFirst pat s'
  end.

(** [fs.readFileSync(inputPath, 'utf8')]: the content, or the exception
    it throws (on a directory, on a file that cannot be read). *)
Inductive ReadResult : Type :=
  | ReadOk (content : str)
  | ReadThrows (err : str).

(** What the script reads from Node and from the operating system;
    [existsSync] and [mkdirSync] are taken to return normally. *)
Record FormatNode : Type := mkFormatNode {
  fmt_argv2 : option str;             (* process.argv[2] *)
  fmt_argv3 : option str;             (* process.argv[3] *)
  formattedDirExists : bool;          (* fs.existsSync(formattedDir) *)
  inputFileExists : str -> bool;      (* fs.existsSync(inputPath) *)
  readFile : str -> ReadResult;       (* fs.readFileSync(inputPath, 'utf8') *)
  fmt_basename : str -> str;          (* path.basename(f, path.extname(f)) *)
  packError : Document -> option str; (* the rejection of Packer.toBuffer *)
  writeError : str -> option str      (* the exception of fs.writeFileSync *)
}.

(** The lines the script prints. *)
Inductive FormatMessage : Type :=
  | FormatUsage
  | FormatExample
  | CreatedFormattedDir
  | InputNotFound (inputFile : str)
  | ReadingTranscript
  | DetectedSpeakers (speakers : str)
  | ParsedSegments (n : nat)
  | BuildingDocument
  | WritingDocument
  | DocumentCreated
  | DocumentOutput (outputFilename : str)
  | FormatNextSteps
  | FormatNextStep (n : N)
  | ErrorCreating (err : str).

(** What a run does to the outside, in order; the file written holds the
    buffer [Packer] made of the document, and an exception nothing
    catches is reported by Node before the process ends. *)
Inductive FormatEffect : Type :=
  | FormatPrint (s : Stream) (m : FormatMessage)
  | MkdirFormatted
  | WriteDocx (outputFilename : str) (d : Document)
  | UncaughtException (err : str).

Definition FormatProc (A : Type) : Type :=
  list FormatEffect -> list FormatEffect * Run A.

Definition fmt_ret {A : Type} (a : A) : FormatProc A :=
  fun tr => (tr, Continue a).

Definition fmt_bind {A B : Type} (m : FormatProc A) (k : A -> FormatProc B)
    : FormatProc B :=
  fun tr =>
    match m tr with
    | (tr', Continue a) => k a tr'
    | (tr', Exited code) => (tr', Exited code)
    end.

Notation "m ;;; k" := (fmt_bind m (fun _ => k))
  (at level 61, right associativity).

Definition fmt_effect (e : FormatEffect) : FormatProc unit :=
  fun tr => (tr ++ [e], Continue tt).

Definition fmt_log (m : FormatMessage) : FormatProc unit :=
  fmt_effect (FormatPrint ConsoleLog m).

Definition fmt_error (m : FormatMessage) : FormatProc unit :=
  fmt_effect (FormatPrint ConsoleError m).

Definition fmt_exit {A : Type} (code : N) : FormatProc A :=
  fun tr => (tr, Exited code).

Definition fmt_when (b : bool) (m : FormatProc unit) : FormatProc unit :=
  if b then m else fmt_ret tt.

(** An exception thrown at the top level of the script and not caught:
    Node reports it and the process ends with exit code 1. *)
Definition fmt_throw {A : Type} (err : str) : FormatProc A :=
  fmt_effect (UncaughtException err) ;;; fmt_exit 1.

(** The value of a command-line argument that is there and not empty. *)
Definition given (arg : option str) : bool :=
  match arg with
  | Some a => truthy a
  | None => false
  end.

(** [baseFilename] *)
Definition baseFilename (w : FormatNode) (inputFile : str) : str :=
  removeFirst (lit " - notes") (fmt_basename w inputFile).

(** The document the script builds from the content of the file and the
    duration. *)
Definition builtDocument (w : FormatNode) (inputFile duration content : str)
    : Document :=
  doc (baseFilename w inputFile) (extractSpeakers content) duration
      (parseTranscript content).

(** [Packer.toBuffer(doc).then(...).catch(...)]: a rejection of the
    packer and an exception of [writeFileSync] both end in the handler
    of [catch]. *)
Definition packAndWrite (w : FormatNode) (outputFilename : str)
    (d : Document) : FormatProc unit :=
  match packError w d with
  | Some err => fmt_error (ErrorCreating err) ;;; fmt_exit 1
  | None =>
      match writeError w outputFilename with
      | Some err => fmt_error (ErrorCreating err) ;;; fmt_exit 1
      | None =>
          fmt_effect (WriteDocx outputFilename d) ;;;
          fmt_log DocumentCreated ;;;
          fmt_log (DocumentOutput outputFilename) ;;;
          fmt_log FormatNextSteps ;;;
          fmt_log (FormatNextStep 1) ;;;
          fmt_log (FormatNextStep 2) ;;;
          fmt_log (FormatNextStep 3) ;;;
          fmt_log (FormatNextStep 4) ;;;
          fmt_log (FormatNextStep 5)
      end
  end.

(** The script of [format-gmr.js]. *)
Definition formatScript (w : FormatNode) : FormatProc unit :=
  match fmt_argv2 w, fmt_argv3 w with
  | Some (c :: f), Some (e :: u) =>
      let inputFile := c :: f in
      let duration := e :: u in
      fmt_when (negb (formattedDirExists w))
        (fmt_effect MkdirFormatted ;;; fmt_log CreatedFormattedDir) ;;;
      fmt_when (negb (inputFileExists w inputFile))
        (fmt_error (InputNotFound inputFile) ;;; fmt_exit 1) ;;;
      fmt_log ReadingTranscript ;;;
      match readFile w inputFile with
      | ReadThrows err => fmt_throw err
      | ReadOk content =>
          let speakers := extractSpeakers content in
          fmt_log (DetectedSpeakers speakers) ;;;
          let segments := parseTranscript content in
          fmt_log (ParsedSegments (List.length segments)) ;;;
          fmt_log BuildingDocument ;;;
          let d :=
            doc (baseFilename w inputFile) speakers duration segments in
          let outputFilename := baseFilename w inputFile ++ lit ".docx" in
          fmt_log WritingDocument ;;;
          packAndWrite w outputFilename d
      end
  | _, _ =>
      fmt_error FormatUsage ;;;
      fmt_log FormatExample ;;;
      fmt_exit 1
  end.

(** A whole run of the format command: its effects and its exit code. *)
Definition formatGmr (w : FormatNode) : list FormatEffect * N :=
  match formatScript w [] with
  | (tr, Continue _) => (tr, 0%N)
  | (tr, Exited code) => (tr, code)
  end.

Definition formatTrace (w : FormatNode) : list FormatEffect :=
  fst (formatGmr w).
Definition formatExitCode (w : FormatNode) : N := snd (formatGmr w).

(** * The vocabulary of the properties *)

(** What every emitted segment satisfies. *)
Definition wellFormed (seg : Segment) : Prop :=
  speaker seg <> [] /\ text seg <> [] /\ trim (text seg) = text seg.

(** What the loop keeps true: the segments so far are well formed, and
    once a speaker is set it is not empty and the accumulated text begins
    with a character that is not white space. *)
Definition stateOk (st : ParseState) : Prop :=
  Forall wellFormed (segments st) /\
  forall sp, currentSpeaker st = Some sp ->
    sp <> [] /\ exists c r, currentText st = c :: r /\ is_space c = false.

(** The line is a speaker-label line: its trimmed form matches the
    pattern. *)
Definition is_label_line (line : str) : bool :=
  match speakerMatch (trim line) with
  | Some _ => true
  | None => false
  end.

Fixpoint dropUntilLabel (lines : list str) : list str :=
  match lines with
  | [] => []
  | l :: rest => if is_label_line l then lines else dropUntilLabel rest
  end.

(** The text from its first speaker-label line on; empty when it has
    none. *)
Definition fromFirstLabel (text : str) : str :=
  join [LF] (dropUntilLabel (split_lines text)).

(** The audio file named on the command line is in the audio folder. *)
Definition audioFilePresent (w : Node) : bool :=
  match argv2 w with
  | Some audioFileName => audioFileExists w audioFileName
  | None => false
  end.

(** Reading [pre] from the left: is the last parenthesis seen an opening
    one?  [b] is the answer before [pre]. *)
Fixpoint open_from (b : bool) (pre : str) : bool :=
  match pre with
  | [] => b
  | c :: pre' =>
      open_from (if (c =? LP)%N then true
                 else if (c =? RP)%N then false else b) pre'
  end.

(** [x] stands in [s] between an opening parenthesis and the next closing
    one, is not empty, and the text before that opening parenthesis does
    not end inside a parenthesis that is still open. *)
Definition capturedFrom (b : bool) (s x : str) : Prop :=
  exists pre post,
    s = pre ++ LP :: x ++ RP :: post /\
    x <> [] /\ forallb not_RP x = true /\ open_from b pre = false.

Definition captured (s x : str) : Prop := capturedFrom false s x.

(** The same scan as one pass over the text: [inside] holds the
    characters read since the opening parenthesis of the span being
    read. *)
Fixpoint spans (inside : option str) (s : str) : list str :=
  match s with
  | [] => []
  | c :: s' =>
      match inside with
      | None =>
          if (c =? LP)%N then spans (Some []) s' else spans None s'
      | Some acc =>
          if (c =? RP)%N then
            match acc with
            | [] => spans None s'
            | _ :: _ => acc :: spans None s'
            end
          else spans (Some (acc ++ [c])) s'
      end
  end.

(** The span being read: [x] is [acc] and then the characters up to the
    next closing parenthesis. *)
Definition closesRun (acc s x : str) : Prop :=
  exists g post,
    s = g ++ RP :: post /\ forallb not_RP g = true /\
    x = acc ++ g /\ x <> [].

Definition str_le (a b : str) : Prop := str_leb a b = true.

(** C6 as the claim words it.  A parenthesized span of characters that
    are neither white space nor parentheses, somewhere in the text. *)
Definition is_token_char (c : char) : bool :=
  negb (is_space c) && negb (c =? LP)%N && negb (c =? RP)%N.

Definition tokenSpan (s x : str) : Prop :=
  exists pre post,
    s = pre ++ LP :: x ++ RP :: post /\
    x <> [] /\ forallb is_token_char x = true.

(** The trimmed line [s] reads as a text [g1], white space [ws] and the
    token [g2] in parentheses at its end, as the pattern of
    [parseTranscript] asks. *)
Definition labelled (s g1 ws g2 : str) : Prop :=
  s = g1 ++ ws ++ LP :: g2 ++ [RP] /\
  g1 <> [] /\ forallb not_line_terminator g1 = true /\
  forallb is_space ws = true /\
  g2 <> [] /\ forallb not_RP g2 = true.

(** The string is not empty and neither begins nor ends with white
    space. *)
Definition tight (s : str) : Prop :=
  exists c r d v,
    s = c :: r /\ is_space c = false /\
    rev s = d :: v /\ is_space d = false.

(** The token of a speaker-label line, if the line is one. *)
Definition labelOf (line : str) : list str :=
  match speakerMatch (trim line) with
  | Some (_, g2) => [g2]
  | None => []
  end.

(** The state with [pre] emitted before its segments. *)
Definition withSegments (pre : list Segment) (st : ParseState) : ParseState :=
  {| segments := pre ++ segments st;
     currentSpeaker := currentSpeaker st;
     currentText := currentText st |}.

(** The line is not empty after trimming. *)
Definition nonBlank (line : str) : bool := truthy (trim line).

(** The speaker set when the loop is at [st], as a list of at most one. *)
Definition pending (st : ParseState) : list str :=
  match currentSpeaker st with
  | Some sp => [sp]
  | None => []
  end.

(** What the lines after a label line add to its text: a space and the
    trimmed line, for each line that is not blank. *)
Definition continuation (lines : list str) : str :=
  List.concat (map (fun l => SP :: trim l) (filter nonBlank lines)).

(** The segment holds no newline and its speaker no closing
    parenthesis. *)
Definition oneLine (seg : Segment) : Prop :=
  ~ In LF (speaker seg) /\ ~ In RP (speaker seg) /\ ~ In LF (text seg).

Definition stateOneLine (st : ParseState) : Prop :=
  Forall oneLine (segments st) /\
  (forall sp, currentSpeaker st = Some sp -> ~ In LF sp /\ ~ In RP sp) /\
  ~ In LF (currentText st).

(** The annotated line of a turn, as the usage of the tool has it: the
    spoken text, a space and the speaker in parentheses. *)
Definition renderTurn (seg : Segment) : str :=
  text seg ++ SP :: LP :: speaker seg ++ [RP].

(** A turn whose annotated line reads back without ambiguity: the text
    neither begins nor ends with white space and holds no line terminator
    and no opening parenthesis; the speaker is not empty and holds no
    closing parenthesis and no newline. *)
Definition plainTurn (seg : Segment) : Prop :=
  tight (text seg) /\
  forallb not_line_terminator (text seg) = true /\
  ~ In LP (text seg) /\
  speaker seg <> [] /\
  forallb not_RP (speaker seg) = true /\
  ~ In LF (speaker seg).

Definition isSome {T : Type} (o : option T) : bool :=
  match o with
  | Some _ => true
  | None => false
  end.

(** [tight] and [plainTurn] as tests. *)
Definition tightb (s : str) : bool :=
  match s with
  | c :: _ => negb (is_space c)
  | [] => false
  end
  && match rev s with
     | d :: _ => negb (is_space d)
     | [] => false
     end.

Definition plainTurnb (seg : Segment) : bool :=
  tightb (text seg)
  && forallb not_line_terminator (text seg)
  && forallb (fun x => negb (x =? LP)%N) (text seg)
  && truthy (speaker seg)
  && forallb not_RP (speaker seg)
  && forallb (fun x => negb (x =? LF)%N) (speaker seg).

(** The effects of the two directory checks at the start of the
    transcribe script. *)
Definition setupEffects (w : Node) : list Effect :=
  (if audioDirExists w then []
   else [MkdirSync AudioDir; Print ConsoleLog CreatedAudioDir])
  ++ (if transcriptsDirExists w then []
      else [MkdirSync TranscriptsDir; Print ConsoleLog CreatedTranscriptsDir]).

(** The entries of the audio folder the script shows. *)
Definition listedFiles (w : Node) : list str :=
  filter (fun f => negb (startsWithDot f)) (audioDirEntries w).

(** The effects of the callback of [exec]. *)
Definition callbackEffects (w : Node) (fileName : str) : list Effect :=
  match execError w with
  | Some message => [Print ConsoleError (TranscriptionFailed message)]
  | None =>
      (if truthy (execStderr w)
       then [Print ConsoleLog (Raw (execStderr w))] else [])
      ++ [ Print ConsoleLog (Raw (execStdout w));
           Print ConsoleLog TranscriptionComplete;
           Print ConsoleLog (TextOutput fileName);
           Print ConsoleLog (TimestampedOutput fileName);
           Print ConsoleLog NextSteps;
           Print ConsoleLog (NextStep 1);
           Print ConsoleLog (NextStep 2);
           Print ConsoleLog (NextStep 3);
           Print ConsoleLog (NextStep 4) ]
  end.

(** The effects of a run after the directory checks, by the case the run
    falls in. *)
Definition runEffects (w : Node) : list Effect :=
  match argv2 w with
  | None | Some [] =>
      [ Print ConsoleError ProvideFileName;
        Print ConsoleLog Usage;
        Print ConsoleLog UsageExample;
        Print ConsoleLog PlaceAudioFiles;
        Print ConsoleLog TranscriptsSavedTo ]
  | Some audioFileName =>
      if audioFileExists w audioFileName then
        [ Print ConsoleLog StartingTranscription;
          Print ConsoleLog (InputIs audioFileName);
          Print ConsoleLog (OutputIs (basenameNoExt w audioFileName));
          Print ConsoleLog MayTakeMinutes;
          ExecWhisper audioFileName ]
        ++ callbackEffects w (basenameNoExt w audioFileName)
      else
        [ Print ConsoleError (FileNotFound audioFileName);
          Print ConsoleLog MakeSureInFolder ]
        ++ match listedFiles w with
           | [] => [Print ConsoleLog FolderEmpty]
           | fs => Print ConsoleLog AvailableFiles
                   :: map (fun f => Print ConsoleLog (FileEntry f)) fs
           end
        ++ [Print ConsoleLog BlankLine]
  end.

(** With these two arguments the file is there and is read as
    [content], and neither the packer nor the write fails. *)
Definition formatSucceedsWith (w : FormatNode)
    (inputFile duration content : str) : Prop :=
  fmt_argv2 w = Some inputFile /\ inputFile <> [] /\
  fmt_argv3 w = Some duration /\ duration <> [] /\
  inputFileExists w inputFile = true /\
  readFile w inputFile = ReadOk content /\
  packError w (builtDocument w inputFile duration content) = None /\
  writeError w (baseFilename w inputFile ++ lit ".docx") = None.

Definition formatSucceeds (w : FormatNode) : Prop :=
  exists inputFile duration content,
    formatSucceedsWith w inputFile duration content.

(** The effects and the exit code of a run of the format command whose
    two arguments are given, by the case the run falls in. *)
Definition formatRun (w : FormatNode) (inputFile duration : str)
    : list FormatEffect * N :=
  let setup :=
    if formattedDirExists w then []
    else [MkdirFormatted; FormatPrint ConsoleLog CreatedFormattedDir] in
  if inputFileExists w inputFile then
    match readFile w inputFile with
    | ReadThrows err =>
        (setup ++ [ FormatPrint ConsoleLog ReadingTranscript;
                    UncaughtException err ], 1%N)
    | ReadOk content =>
        let d := builtDocument w inputFile duration content in
        let outputFilename := baseFilename w inputFile ++ lit ".docx" in
        let progress :=
          [ FormatPrint ConsoleLog ReadingTranscript;
            FormatPrint ConsoleLog
              (DetectedSpeakers (extractSpeakers content));
            FormatPrint ConsoleLog
              (ParsedSegments (List.length (parseTranscript content)));
            FormatPrint ConsoleLog BuildingDocument;
            FormatPrint ConsoleLog WritingDocument ] in
        match packError w d, writeError w outputFilename with
        | Some err, _ | None, Some err =>
            (setup ++ progress
             ++ [FormatPrint ConsoleError (ErrorCreating err)], 1%N)
        | None, None =>
            (setup ++ progress
             ++ [ WriteDocx outputFilename d;
                  FormatPrint ConsoleLog DocumentCreated;
                  FormatPrint ConsoleLog (DocumentOutput outputFilename);
                  FormatPrint ConsoleLog FormatNextSteps;
                  FormatPrint ConsoleLog (FormatNextStep 1);
                  FormatPrint ConsoleLog (FormatNextStep 2);
                  FormatPrint ConsoleLog (FormatNextStep 3);
                  FormatPrint ConsoleLog (FormatNextStep 4);
                  FormatPrint ConsoleLog (FormatNextStep 5) ], 0%N)
        end
    end
  else
    (setup ++ [FormatPrint ConsoleError (InputNotFound inputFile)], 1%N).

(** * Properties *)

Unset Implicit Arguments.

(** ** Strings: [dropWhile] and [trim] *)

Lemma dropWhile_head (p : char -> bool) (s : str) :
  dropWhile p s = [] \/ exists c r, dropWhile p s = c :: r /\ p c = false.
Proof.
  induction s as [|c s IH]; simpl; [now left|].
  destruct (p c) eqn:E; [exact IH|].
  right. now exists c, s.
Qed.

Lemma dropWhile_fixed (p : char -> bool) (c : char) (r : str) :
  p c = false -> dropWhile p (c :: r) = c :: r.
Proof. intros H. simpl. now rewrite H. Qed.

Lemma dropWhile_split (p : char -> bool) (s : str) :
  exists pre, s = pre ++ dropWhile p s /\ forallb p pre = true.
Proof.
  induction s as [|c s [pre [E F]]]; simpl.
  - now exists [].
  - destruct (p c) eqn:Hc.
    + exists (c :: pre). simpl. rewrite Hc, F. split; [now f_equal|reflexivity].
    + now exists [].
Qed.

Lemma dropWhile_snoc (p : char -> bool) (l : str) (c : char) :
  p c = false -> exists l', dropWhile p (l ++ [c]) = l' ++ [c].
Proof.
  intros Hc. induction l as [|d l [l' IH]]; simpl.
  - rewrite Hc. now exists [].
  - destruct (p d).
    + now exists l'.
    + now exists (d :: l).
Qed.

(** A trimmed string is empty, or begins and ends with a character that
    is not white space. *)
Lemma trim_shape (s : str) :
  trim s = [] \/
  exists c r d v,
    trim s = c :: r /\ is_space c = false /\
    rev (trim s) = d :: v /\ is_space d = false.
Proof.
  unfold trim, trimEnd, trimStart.
  set (u := dropWhile is_space s).
  destruct (dropWhile_head is_space (rev u)) as [E | (d & v & E & Hd)].
  - left. now rewrite E.
  - right. rewrite E.
    destruct (dropWhile_split is_space (rev u)) as (pre & Epre & _).
    rewrite E in Epre.
    assert (Eu : u = rev (d :: v) ++ rev pre).
    { rewrite <- rev_app_distr, <- Epre. now rewrite rev_involutive. }
    destruct (dropWhile_head is_space s) as [E0 | (c & r & E0 & Hc)];
      fold u in E0.
    + rewrite E0 in Eu. symmetry in Eu. apply app_eq_nil in Eu.
      destruct Eu as [Eu _]. simpl in Eu. now destruct (rev v).
    + rewrite E0 in Eu.
      destruct (rev (d :: v)) as [|c' r'] eqn:Er.
      { simpl in Er. now destruct (rev v). }
      simpl in Eu. injection Eu as <- _.
      exists c, r', d, v. repeat split; trivial.
      rewrite <- Er. now rewrite rev_involutive.
Qed.

Lemma trim_idempotent (s : str) : trim (trim s) = trim s.
Proof.
  destruct (trim_shape s) as [E | (c & r & d & v & E & Hc & Er & Hd)].
  - now rewrite E.
  - unfold trim at 1. unfold trimStart, trimEnd.
    rewrite E, (dropWhile_fixed _ _ _ Hc), <- E, Er, (dropWhile_fixed _ _ _ Hd).
    now rewrite <- Er, rev_involutive.
Qed.

(** Trimming keeps a first character that is not white space. *)
Lemma trim_keeps_head (c : char) (r : str) :
  is_space c = false -> exists r', trim (c :: r) = c :: r'.
Proof.
  intros Hc. unfold trim, trimStart, trimEnd.
  rewrite (dropWhile_fixed _ _ _ Hc). simpl rev.
  destruct (dropWhile_snoc is_space (rev r) c Hc) as [l' E].
  rewrite E, rev_app_distr. now exists (rev l').
Qed.

(** ** The backtracking combinators *)

Section BacktrackingFacts.
Variable A : Type.
Implicit Types (k : str -> str -> option A) (p : char -> bool).

Lemma lazy_plus_Some p s k a :
  lazy_plus p s k = Some a ->
  exists m r, s = m ++ r /\ m <> [] /\ forallb p m = true /\ k m r = Some a.
Proof.
  revert k. induction s as [|c s IH]; intros k; simpl; [discriminate|].
  destruct (p c) eqn:Hc; [|discriminate].
  destruct (k [c] s) eqn:Hk.
  - intros [= <-]. exists [c], s. simpl. rewrite Hc. now repeat split.
  - intros H. apply IH in H. destruct H as (m & r & -> & _ & F & K).
    exists (c :: m), r. simpl. rewrite Hc, F. now repeat split.
Qed.

Lemma greedy_star_Some p s k a :
  greedy_star p s k = Some a ->
  exists m r, s = m ++ r /\ forallb p m = true /\ k m r = Some a.
Proof.
  revert k. induction s as [|c s IH]; intros k; simpl.
  - intros H. now exists [], [].
  - destruct (p c) eqn:Hc.
    + destruct (greedy_star p s (fun m r => k (c :: m) r)) eqn:G.
      * intros [= <-]. apply IH in G. destruct G as (m & r & -> & F & K).
        exists (c :: m), r. simpl. now rewrite Hc, F.
      * intros H. now exists [], (c :: s).
    + intros H. now exists [], (c :: s).
Qed.

(** The longest run is tried first: when the input after it does not go
    on with a character of the class and the rest of the pattern accepts
    it, that is the match. *)
Lemma greedy_star_longest p m r k a :
  forallb p m = true ->
  match r with [] => True | d :: _ => p d = false end ->
  k m r = Some a ->
  greedy_star p (m ++ r) k = Some a.
Proof.
  revert k. induction m as [|c m IH]; intros k F R K; simpl in *.
  - destruct r as [|d r]; simpl; trivial. now rewrite R.
  - apply andb_prop in F. destruct F as [Hc F]. rewrite Hc.
    now rewrite (IH (fun m0 r0 => k (c :: m0) r0) F R K).
Qed.
End BacktrackingFacts.

Lemma not_RP_false (c : char) : not_RP c = false <-> c = RP.
Proof.
  unfold not_RP. rewrite negb_false_iff. apply N.eqb_eq.
Qed.

Lemma not_RP_true (c : char) : not_RP c = true <-> c <> RP.
Proof.
  unfold not_RP. rewrite negb_true_iff. apply N.eqb_neq.
Qed.

(** What a successful match of the part after group 1 says of the input. *)
Lemma label_tail_Some (r g2 : str) :
  label_tail r = Some g2 ->
  exists ws, r = ws ++ LP :: g2 ++ [RP] /\
             forallb is_space ws = true /\
             g2 <> [] /\ forallb not_RP g2 = true.
Proof.
  unfold label_tail. intros H.
  apply greedy_star_Some in H. destruct H as (ws & r1 & -> & Hws & H).
  exists ws. destruct r1 as [|d r2]; simpl in H; [discriminate|].
  destruct (d =? LP)%N eqn:Ed; [|discriminate].
  apply N.eqb_eq in Ed. subst d.
  destruct r2 as [|c r2]; simpl in H; [discriminate|].
  destruct (not_RP c) eqn:Hc; [|discriminate].
  apply greedy_star_Some in H. destruct H as (m & r3 & -> & Hm & H).
  destruct r3 as [|e r4]; simpl in H; [discriminate|].
  destruct (e =? RP)%N eqn:Ee; [|discriminate].
  apply N.eqb_eq in Ee. subst e.
  destruct r4; simpl in H; [|discriminate].
  injection H as <-.
  repeat split; trivial; [discriminate|].
  simpl. now rewrite Hc, Hm.
Qed.

(** What a successful match of the whole pattern says of the line. *)
Lemma speakerMatch_Some (s g1 g2 : str) :
  speakerMatch s = Some (g1, g2) ->
  exists ws,
    s = g1 ++ ws ++ LP :: g2 ++ [RP] /\
    g1 <> [] /\ forallb not_line_terminator g1 = true /\
    forallb is_space ws = true /\
    g2 <> [] /\ forallb not_RP g2 = true.
Proof.
  unfold speakerMatch. intros H.
  apply lazy_plus_Some in H. destruct H as (m & r & -> & Hm & Fm & H).
  destruct (label_tail r) as [g|] eqn:T; [|discriminate].
  injection H as -> ->.
  apply label_tail_Some in T. destruct T as (ws & -> & Hws & Hg & Fg).
  exists ws. now repeat split.
Qed.

(** ** parseTranscript: the loop invariant *)

Lemma initialState_ok : stateOk initialState.
Proof. split; [constructor | discriminate]. Qed.

Lemma flush_ok (st : ParseState) : stateOk st -> Forall wellFormed (flush st).
Proof.
  intros [Hs Hc]. unfold flush.
  destruct (currentSpeaker st) as [sp|] eqn:E; trivial.
  destruct (truthy sp && truthy (currentText st)); trivial.
  destruct (Hc sp eq_refl) as (Hsp & c & r & Et & Hsc).
  apply Forall_app. split; trivial.
  constructor; [|constructor].
  unfold wellFormed; simpl. repeat split; trivial.
  - rewrite Et. destruct (trim_keeps_head c r Hsc) as [r' ->]. discriminate.
  - apply trim_idempotent.
Qed.

Lemma step_ok (st : ParseState) (line : str) : stateOk st -> stateOk (step st line).
Proof.
  intros Hst. unfold step.
  destruct (truthy (trim line)) eqn:T; simpl; trivial.
  destruct (speakerMatch (trim line)) as [[g1 g2]|] eqn:M.
  - split; simpl; [now apply flush_ok|].
    intros sp [= <-].
    apply speakerMatch_Some in M.
    destruct M as (ws & E & Hg1 & _ & _ & Hg2 & _).
    split; trivial.
    destruct (trim_shape line) as [E0 | (c & r & _ & _ & Ec & Hc & _)].
    + rewrite E0 in T. discriminate.
    + rewrite Ec in E. destruct g1 as [|c' g1']; [contradiction|].
      injection E as <- _. now exists c, g1'.
  - destruct Hst as [Hs Hc]. split; simpl; trivial.
    intros sp Esp. destruct (Hc sp Esp) as (Hsp & c & r & -> & Hsc).
    split; trivial. now exists c, (r ++ SP :: trim line).
Qed.

Lemma fold_step_ok (lines : list str) (st : ParseState) :
  stateOk st -> stateOk (fold_left step lines st).
Proof.
  revert st. induction lines as [|l lines IH]; intros st H; simpl; trivial.
  apply IH. now apply step_ok.
Qed.

(** ** parseTranscript: lines before the first label *)

Lemma speakerMatch_nil : speakerMatch [] = None.
Proof. reflexivity. Qed.

(** A line that is no label leaves the segments and the speaker alone. *)
Lemma step_no_label (st : ParseState) (line : str) :
  is_label_line line = false ->
  segments (step st line) = segments st /\
  currentSpeaker (step st line) = currentSpeaker st.
Proof.
  unfold is_label_line, step. intros H.
  destruct (truthy (trim line)); simpl; [|now split].
  destruct (speakerMatch (trim line)) as [[g1 g2]|]; [discriminate|].
  now split.
Qed.

(** At a label line the state after the step does not depend on the
    accumulated text when no speaker was set and nothing was emitted. *)
Lemma step_label_fresh (st : ParseState) (line : str) :
  is_label_line line = true ->
  segments st = [] -> currentSpeaker st = None ->
  step st line = step initialState line.
Proof.
  unfold is_label_line, step. intros H Hs Hc.
  destruct (speakerMatch (trim line)) as [[g1 g2]|] eqn:M; [|discriminate].
  destruct (truthy (trim line)) eqn:T; simpl.
  - unfold flush. now rewrite Hs, Hc.
  - destruct (trim line); [discriminate M | discriminate T].
Qed.

Lemma fold_step_no_label (pre : list str) (st : ParseState) :
  forallb (fun l => negb (is_label_line l)) pre = true ->
  segments (fold_left step pre st) = segments st /\
  currentSpeaker (fold_left step pre st) = currentSpeaker st.
Proof.
  revert st. induction pre as [|l pre IH]; intros st H; simpl in *.
  - now split.
  - apply andb_prop in H. destruct H as [Hl H].
    apply negb_true_iff in Hl.
    destruct (step_no_label st l Hl) as [E1 E2].
    destruct (IH (step st l) H) as [E3 E4].
    split; congruence.
Qed.

Lemma dropUntilLabel_split (lines : list str) :
  exists pre,
    lines = pre ++ dropUntilLabel lines /\
    forallb (fun l => negb (is_label_line l)) pre = true /\
    match dropUntilLabel lines with
    | [] => True
    | l :: _ => is_label_line l = true
    end.
Proof.
  induction lines as [|l lines (pre & E & F & H)]; simpl.
  - now exists [].
  - destruct (is_label_line l) eqn:L.
    + now exists [].
    + exists (l :: pre). simpl. rewrite L, F. simpl.
      repeat split; trivial. now f_equal.
Qed.

Lemma parseLines_dropUntilLabel (lines : list str) :
  parseLines lines = parseLines (dropUntilLabel lines).
Proof.
  destruct (dropUntilLabel_split lines) as (pre & E & F & H).
  rewrite E at 1. unfold parseLines. rewrite fold_left_app.
  destruct (fold_step_no_label pre initialState F) as [E1 E2].
  destruct (dropUntilLabel lines) as [|l rest]; simpl.
  - unfold flush. now rewrite E2, E1.
  - now rewrite (step_label_fresh _ l H E1 E2).
Qed.

(** [split] and [join] on the newline. *)
Lemma split_lines_not_nil (s : str) : split_lines s <> [].
Proof.
  destruct s as [|c s]; simpl; [discriminate|].
  destruct (c =? LF)%N; [discriminate|].
  destruct (split_lines s); discriminate.
Qed.

Lemma join_split_lines (s : str) : join [LF] (split_lines s) = s.
Proof.
  induction s as [|c s IH]; simpl; trivial.
  destruct (c =? LF)%N eqn:E.
  - apply N.eqb_eq in E. subst c.
    destruct (split_lines s) as [|l ls] eqn:S.
    + now apply split_lines_not_nil in S.
    + simpl. simpl in IH. now rewrite IH.
  - destruct (split_lines s) as [|l ls] eqn:S.
    + now apply split_lines_not_nil in S.
    + rewrite <- IH. simpl. now destruct ls.
Qed.

Lemma split_lines_no_LF (s : str) :
  Forall (fun l => ~ In LF l) (split_lines s).
Proof.
  induction s as [|c s IH]; simpl.
  - constructor; [intros [] | constructor].
  - destruct (c =? LF)%N eqn:E.
    + constructor; trivial. intros [].
    + apply N.eqb_neq in E.
      destruct (split_lines s) as [|l ls].
      * constructor; [|constructor]. intros [H|[]]. now apply E.
      * inversion IH as [|? ? Hl Hls]; subst.
        constructor; trivial. intros [H|H]; [now apply E | now apply Hl].
Qed.

Lemma split_lines_app_no_LF (l rest : str) :
  ~ In LF l ->
  split_lines (l ++ LF :: rest) = l :: split_lines rest.
Proof.
  induction l as [|c l IH]; intros H; simpl.
  - reflexivity.
  - destruct (c =? LF)%N eqn:E.
    + apply N.eqb_eq in E. exfalso. apply H. now left.
    + rewrite IH; trivial. intros H'. apply H. now right.
Qed.

Lemma split_lines_single (l : str) : ~ In LF l -> split_lines l = [l].
Proof.
  induction l as [|c l IH]; intros H; simpl; trivial.
  destruct (c =? LF)%N eqn:E.
  - apply N.eqb_eq in E. exfalso. apply H. now left.
  - rewrite IH; trivial. intros H'. apply H. now right.
Qed.

Lemma split_join_lines (ls : list str) :
  ls <> [] -> Forall (fun l => ~ In LF l) ls ->
  split_lines (join [LF] ls) = ls.
Proof.
  induction ls as [|l ls IH]; intros Hn H; [contradiction|].
  inversion H as [|? ? Hl Hls]; subst.
  destruct ls as [|l' ls'].
  - simpl. now apply split_lines_single.
  - change (join [LF] (l :: l' :: ls')) with (l ++ LF :: join [LF] (l' :: ls')).
    rewrite split_lines_app_no_LF; trivial.
    f_equal. apply IH; [discriminate | trivial].
Qed.

Lemma join_app_suffix (a b : list str) :
  exists pre, join [LF] (a ++ b) = pre ++ join [LF] b.
Proof.
  induction a as [|x a [pre IH]].
  - now exists [].
  - change ((x :: a) ++ b) with (x :: (a ++ b)).
    destruct (a ++ b) as [|y ys] eqn:E.
    + apply app_eq_nil in E. destruct E as [_ ->].
      exists x. simpl. now rewrite app_nil_r.
    + change (join [LF] (x :: y :: ys)) with (x ++ [LF] ++ join [LF] (y :: ys)).
      rewrite IH. exists (x ++ [LF] ++ pre). now rewrite <- !app_assoc.
Qed.

Lemma dropUntilLabel_none (lines : list str) :
  forallb (fun l => negb (is_label_line l)) lines = true ->
  dropUntilLabel lines = [].
Proof.
  induction lines as [|l lines IH]; simpl; trivial.
  intros H. apply andb_prop in H. destruct H as [Hl H].
  apply negb_true_iff in Hl. rewrite Hl. now apply IH.
Qed.

(** ** parseTranscript: the claims *)

(** C1 (evaluation of the code where it departs from the claim).  On
    "Hi (BOB)\nfine (not sure)" the first line sets the speaker BOB and
    the text "Hi".  The second line ends with a parenthesized span that
    has a space inside; the loop takes it for a speaker-label line all the
    same: the segment of BOB is flushed, the current speaker becomes
    "not sure" and the accumulated text restarts at "fine", so that two
    segments come out. *)
Theorem step_accepts_label_with_space :
  let afterBob := {| segments := [];
                     currentSpeaker := Some (lit "BOB");
                     currentText := lit "Hi" |} in
  fold_left step [lit "Hi (BOB)"] initialState = afterBob /\
  speakerMatch (lit "fine (not sure)") = Some (lit "fine", lit "not sure") /\
  step afterBob (lit "fine (not sure)")
  = {| segments := [ {| speaker := lit "BOB"; text := lit "Hi" |} ];
       currentSpeaker := Some (lit "not sure");
       currentText := lit "fine" |} /\
  parseTranscript (lit "Hi (BOB)" ++ LF :: lit "fine (not sure)")
  = [ {| speaker := lit "BOB"; text := lit "Hi" |};
      {| speaker := lit "not sure"; text := lit "fine" |} ].
Proof. repeat split; reflexivity. Qed.

(** C2 (evaluation of the code where it departs from the claim).  The
    one-line text "Hello (not sure)" has no line ending with a parenthesized
    single token, and yet parseTranscript returns one segment, with the
    speaker "not sure". *)
Theorem parseTranscript_label_with_space :
  parseTranscript (lit "Hello (not sure)")
  = [ {| speaker := lit "not sure"; text := lit "Hello" |} ].
Proof. reflexivity. Qed.

(** C3.  On "Hello there (BOB)\nHow are you (ALICE)\nGood thanks (BOB)"
    parseTranscript returns exactly three segments, BOB, ALICE and BOB
    again, in that order: the two turns of BOB are not merged. *)
Theorem parseTranscript_three_turns :
  parseTranscript
    (lit "Hello there (BOB)" ++ LF :: lit "How are you (ALICE)"
       ++ LF :: lit "Good thanks (BOB)")
  = [ {| speaker := lit "BOB"; text := lit "Hello there" |};
      {| speaker := lit "ALICE"; text := lit "How are you" |};
      {| speaker := lit "BOB"; text := lit "Good thanks" |} ].
Proof. reflexivity. Qed.

(** C4.  On "(BOB)\n(ALICE)" parseTranscript returns a sequence of
    length 0. *)
Theorem parseTranscript_bare_labels :
  List.length (parseTranscript (lit "(BOB)" ++ LF :: lit "(ALICE)")) = 0.
Proof. reflexivity. Qed.

(** C5.  The text from the first speaker-label line on is a suffix of the
    text, parseTranscript gives on it what it gives on the whole text, so
    the lines before the first label reach no segment; and when no line is
    a speaker-label line the output is empty. *)
Theorem leading_text_discarded (text : str) :
  (exists pre, text = pre ++ fromFirstLabel text) /\
  parseTranscript text = parseTranscript (fromFirstLabel text) /\
  (forallb (fun l => negb (is_label_line l)) (split_lines text) = true ->
   parseTranscript text = []).
Proof.
  unfold fromFirstLabel, parseTranscript.
  destruct (dropUntilLabel_split (split_lines text)) as (pre & E & F & H).
  split; [|split].
  - destruct (join_app_suffix pre (dropUntilLabel (split_lines text)))
      as [p Ep].
    exists p. rewrite <- Ep, <- E. symmetry. apply join_split_lines.
  - rewrite parseLines_dropUntilLabel.
    destruct (dropUntilLabel (split_lines text)) as [|l rest] eqn:D.
    + reflexivity.
    + rewrite split_join_lines; [reflexivity | discriminate |].
      pose proof (split_lines_no_LF text) as N.
      rewrite E in N. apply Forall_app in N. apply N.
  - intros G. rewrite parseLines_dropUntilLabel.
    now rewrite (dropUntilLabel_none _ G).
Qed.

(** A text whose only label comes after two lines of leading text. *)
Lemma leading_text_discarded_witness :
  let text := lit "(BOB)" ++ LF :: lit "(ALICE)" in
  forallb (fun l => negb (is_label_line l)) (split_lines text) = true /\
  parseTranscript text = [].
Proof.
  intros text. split.
  - reflexivity.
  - apply (proj2 (proj2 (leading_text_discarded text))). reflexivity.
Defined.

(** C7, as the code has it.  A line whose trimmed form is one
    parenthesized token and nothing before it, the token holding no
    opening parenthesis, does not match the pattern, which asks for at
    least one character before the token: the step appends the trimmed
    line to the accumulated text and leaves the segments and the current
    speaker as they are. *)
Theorem bare_label_is_continuation (st : ParseState) (line tok : str) :
  ~ In LP tok ->
  trim line = LP :: tok ++ [RP] ->
  speakerMatch (trim line) = None /\
  step st line
  = {| segments := segments st;
       currentSpeaker := currentSpeaker st;
       currentText := currentText st ++ SP :: trim line |}.
Proof.
  intros Htok E.
  assert (M : speakerMatch (trim line) = None).
  { destruct (speakerMatch (trim line)) as [[g1 g2]|] eqn:M; trivial.
    exfalso. apply speakerMatch_Some in M.
    destruct M as (ws & E' & Hg1 & _).
    rewrite E in E'. destruct g1 as [|c g1]; [contradiction|].
    injection E' as _ E'.
    assert (I : In LP (tok ++ [RP])).
    { rewrite E'. apply in_or_app. right. apply in_or_app. right. now left. }
    apply in_app_or in I. destruct I as [I | [I | []]]; [contradiction|].
    discriminate I. }
  split; trivial.
  unfold step. rewrite M, E. reflexivity.
Qed.

(** The line "  (BOB) " after a turn of ALICE. *)
Lemma bare_label_is_continuation_witness :
  step {| segments := []; currentSpeaker := Some (lit "ALICE");
          currentText := lit "Hi" |}
       (lit "  (BOB) ")
  = {| segments := []; currentSpeaker := Some (lit "ALICE");
       currentText := lit "Hi (BOB)" |}.
Proof.
  refine (proj2 (bare_label_is_continuation _ (lit "  (BOB) ") (lit "BOB") _ _)).
  - intros H. vm_compute in H. intuition discriminate.
  - reflexivity.
Defined.

(** C7 without the condition on the token.  The trimmed line "((BOB)" is
    an opening parenthesis, the token "(BOB" and a closing parenthesis,
    with nothing before the first parenthesis; the pattern matches it all
    the same, with the text "(" and the speaker "BOB": after a turn of
    ALICE the step flushes her segment and changes the speaker. *)
Lemma bare_label_with_paren_matches :
  trim (lit "((BOB)") = LP :: lit "(BOB" ++ [RP] /\
  speakerMatch (trim (lit "((BOB)")) = Some (lit "(", lit "BOB") /\
  step {| segments := []; currentSpeaker := Some (lit "ALICE");
          currentText := lit "Hi" |}
       (lit "((BOB)")
  = {| segments := [ {| speaker := lit "ALICE"; text := lit "Hi" |} ];
       currentSpeaker := Some (lit "BOB");
       currentText := lit "(" |}.
Proof. repeat split; reflexivity. Qed.

(** C8.  Every segment parseTranscript returns has a speaker that is not
    empty and a text that is not empty and equals its own trim. *)
Theorem parseTranscript_segments_well_formed (input : str) :
  Forall (fun seg =>
            speaker seg <> [] /\ text seg <> [] /\
            trim (text seg) = text seg)
         (parseTranscript input).
Proof.
  apply (flush_ok (fold_left step (split_lines input) initialState)).
  apply fold_step_ok, initialState_ok.
Qed.

(** ** The document *)

Lemma segmentParagraph_content (seg : Segment) :
  paragraph_content (segmentParagraph seg)
  = speaker seg ++ lit ":" ++ TAB :: text seg.
Proof.
  unfold paragraph_content, segmentParagraph. simpl.
  rewrite app_nil_r, <- app_assoc. reflexivity.
Qed.

(** C10.  For every segment sequence the body of the document is, in
    order, one paragraph for each segment showing the speaker, a colon, a
    tab and the text, then an empty paragraph, "[End of Audio]", an empty
    paragraph and "Duration: <duration> minutes"; the header is the title
    and the speaker list; with no segment the body is the last four
    paragraphs alone. *)
Theorem doc_body (baseFilename speakers duration : str)
    (segs : list Segment) :
  map paragraph_content
      (doc_children (doc baseFilename speakers duration segs))
  = map (fun seg => speaker seg ++ lit ":" ++ TAB :: text seg) segs
    ++ [ []; lit "[End of Audio]"; [];
         lit "Duration: " ++ duration ++ lit " minutes" ]
  /\ map paragraph_content
         (doc_header (doc baseFilename speakers duration segs))
     = [ baseFilename; speakers ]
  /\ map paragraph_content
         (doc_children (doc baseFilename speakers duration []))
     = [ []; lit "[End of Audio]"; [];
         lit "Duration: " ++ duration ++ lit " minutes" ].
Proof.
  assert (T : map paragraph_content
                (doc_children (doc baseFilename speakers duration []))
              = [ []; lit "[End of Audio]"; [];
                  lit "Duration: " ++ duration ++ lit " minutes" ]).
  { unfold paragraph_content. simpl. now rewrite !app_nil_r. }
  split; [|split]; trivial.
  - simpl doc_children. rewrite map_app, map_map. f_equal.
    + apply map_ext. exact segmentParagraph_content.
    + exact T.
  - unfold paragraph_content. simpl. now rewrite !app_nil_r.
Qed.

(** ** The transcribe command *)

Lemma forEach_console_log (files : list str) (tr : list Effect) :
  forEach files (fun f => console_log (FileEntry f)) tr
  = (tr ++ map (fun f => Print ConsoleLog (FileEntry f)) files, Continue tt).
Proof.
  revert tr. induction files as [|f files IH]; intros tr; simpl.
  - unfold ret. now rewrite app_nil_r.
  - unfold bind, console_log, effect. rewrite IH. now rewrite <- app_assoc.
Qed.

(** The two checks of the script exit with code 1; past them the script
    reaches [exec] and goes on. *)
Lemma script_result (w : Node) (tr : list Effect) :
  exists tr',
    (argumentGiven w && audioFilePresent w = true /\
     exists fileName, script w tr = (tr', Continue fileName)) \/
    (argumentGiven w && audioFilePresent w = false /\
     script w tr = (tr', Exited 1%N)).
Proof.
  unfold script, argumentGiven, audioFilePresent, bind, when, ret,
    console_log, console_error, mkdirSync, effect, process_exit.
  destruct (audioDirExists w), (transcriptsDirExists w); simpl;
    (destruct (argv2 w) as [[|c n]|]; simpl;
     [eexists; right; split; reflexivity | |
      eexists; right; split; reflexivity]);
    (destruct (audioFileExists w (c :: n)); simpl;
     [eexists; left; split; [reflexivity | eexists; reflexivity] |]);
    (destruct (filter (fun f => negb (startsWithDot f)) (audioDirEntries w))
       as [|f fs]; simpl; [eexists; right; split; reflexivity|]);
    unfold bind, console_log, effect; rewrite forEach_console_log;
    eexists; right; split; reflexivity.
Qed.

Lemma callback_result (w : Node) (fileName : str) (tr : list Effect) :
  exists tr',
    callback w fileName tr = (tr', Continue tt) /\
    forall message, execError w = Some message ->
      tr' = tr ++ [Print ConsoleError (TranscriptionFailed message)].
Proof.
  unfold callback.
  destruct (execError w) as [m|].
  - eexists. split; [reflexivity|]. now intros message [= <-].
  - unfold bind, when, ret, console_log, effect.
    destruct (truthy (execStderr w)); eexists; (split; [reflexivity|]);
      discriminate.
Qed.

(** C9.  When the subprocess reports an error (the argument was given and
    the audio file is there, so it was started), the last effect of the
    run is the error message on [console.error] and the exit code is 0;
    the exit code is 1 exactly when the argument is missing or the audio
    file is missing, and is 0 otherwise. *)
Theorem transcribe_exit_code (w : Node) :
  (forall message,
     argumentGiven w = true -> audioFilePresent w = true ->
     execError w = Some message ->
     exitCode w = 0%N /\
     exists before,
       trace w = before ++ [Print ConsoleError (TranscriptionFailed message)]) /\
  (exitCode w = 1%N <->
   argumentGiven w = false \/ audioFilePresent w = false) /\
  (exitCode w = 0%N \/ exitCode w = 1%N).
Proof.
  unfold exitCode, trace, transcribe, bind.
  destruct (script_result w [])
    as [tr1 [(G & fileName & E1) | (G & E1)]]; rewrite E1.
  - apply andb_prop in G. destruct G as [-> ->].
    destruct (callback_result w fileName tr1) as (tr2 & E2 & Herr).
    rewrite E2. simpl. split; [|split].
    + intros message _ _ He. split; trivial.
      exists tr1. now apply Herr.
    + split; [discriminate | intros [H|H]; discriminate].
    + now left.
  - simpl. split; [|split].
    + intros message Ha Hp _. rewrite Ha, Hp in G. discriminate.
    + split; trivial. intros _. now apply andb_false_iff in G.
    + now right.
Qed.

(** A run where whisper fails on an existing file. *)
Lemma transcribe_exit_code_witness :
  let w := {| argv2 := Some (lit "talk.mp3");
              audioDirExists := true; transcriptsDirExists := true;
              audioFileExists := fun _ => true;
              audioDirEntries := [lit "talk.mp3"];
              basenameNoExt := fun _ => lit "talk";
              execError := Some (lit "Command failed");
              execStdout := []; execStderr := [] |} in
  exitCode w = 0%N /\
  exists before,
    trace w
    = before ++ [Print ConsoleError (TranscriptionFailed (lit "Command failed"))].
Proof.
  intros w.
  apply (proj1 (transcribe_exit_code w) (lit "Command failed"));
    reflexivity.
Defined.

(** ** extractSpeakers: what the scan collects *)

Lemma speakerPattern_Some (s g r : str) :
  speakerPattern s = Some (g, r) ->
  s = LP :: g ++ RP :: r /\ g <> [] /\ forallb not_RP g = true.
Proof.
  unfold speakerPattern. intros H.
  destruct s as [|d s]; simpl in H; [discriminate|].
  destruct (d =? LP)%N eqn:Ed; [|discriminate].
  apply N.eqb_eq in Ed. subst d.
  destruct s as [|c s]; simpl in H; [discriminate|].
  destruct (not_RP c) eqn:Hc; [|discriminate].
  apply greedy_star_Some in H. destruct H as (m & r3 & -> & Hm & H).
  destruct r3 as [|e r4]; simpl in H; [discriminate|].
  destruct (e =? RP)%N eqn:Ee; [|discriminate].
  apply N.eqb_eq in Ee. subst e.
  injection H as <- <-.
  repeat split; [discriminate|].
  simpl. now rewrite Hc, Hm.
Qed.

Lemma speakerPattern_intro (g r : str) :
  g <> [] -> forallb not_RP g = true ->
  speakerPattern (LP :: g ++ RP :: r) = Some (g, r).
Proof.
  intros Hg F. destruct g as [|c g]; [contradiction|].
  simpl in F. apply andb_prop in F. destruct F as [Hc F].
  unfold speakerPattern. simpl. rewrite Hc.
  now apply greedy_star_longest.
Qed.

Lemma speakerPattern_not_LP (c : char) (s : str) :
  c <> LP -> speakerPattern (c :: s) = None.
Proof.
  intros H. unfold speakerPattern. simpl.
  apply N.eqb_neq in H. now rewrite H.
Qed.

Lemma speakerPattern_empty_parens (r : str) :
  speakerPattern (LP :: RP :: r) = None.
Proof. reflexivity. Qed.

(** A string has a first closing parenthesis or has none. *)
Lemma first_RP (s : str) :
  (exists g r, s = g ++ RP :: r /\ forallb not_RP g = true) \/
  forallb not_RP s = true.
Proof.
  induction s as [|c s IH]; [now right|].
  destruct (not_RP c) eqn:Hc.
  - destruct IH as [(g & r & -> & F) | F].
    + left. exists (c :: g), r. simpl. now rewrite Hc, F.
    + right. simpl. now rewrite Hc, F.
  - apply not_RP_false in Hc. subst c. left. now exists [], s.
Qed.

Lemma no_RP_not_In (s : str) : forallb not_RP s = true -> ~ In RP s.
Proof.
  intros F H. rewrite forallb_forall in F. apply F in H.
  discriminate H.
Qed.

Lemma exec_cons (c : char) (s : str) :
  exec (c :: s)
  = match speakerPattern (c :: s) with
    | Some m => Some m
    | None => exec s
    end.
Proof. reflexivity. Qed.

Lemma exec_no_RP (s : str) : forallb not_RP s = true -> exec s = None.
Proof.
  induction s as [|c s IH]; intros F; [reflexivity|].
  rewrite exec_cons.
  destruct (speakerPattern (c :: s)) as [[g r]|] eqn:P.
  - exfalso. apply speakerPattern_Some in P. destruct P as (E & _).
    apply (no_RP_not_In _ F). rewrite E.
    right. apply in_or_app. right. now left.
  - simpl in F. apply andb_prop in F. now apply IH.
Qed.

Lemma spans_inside_run (g r acc : str) :
  forallb not_RP g = true ->
  spans (Some acc) (g ++ RP :: r)
  = match acc ++ g with
    | [] => spans None r
    | x => x :: spans None r
    end.
Proof.
  revert acc. induction g as [|c g IH]; intros acc F; simpl.
  - rewrite app_nil_r. now destruct acc.
  - simpl in F. apply andb_prop in F. destruct F as [Hc F].
    unfold not_RP in Hc. apply negb_true_iff in Hc. rewrite Hc.
    rewrite IH; trivial. now rewrite <- app_assoc.
Qed.

Lemma spans_inside_no_RP (s acc : str) :
  forallb not_RP s = true -> spans (Some acc) s = [].
Proof.
  revert acc. induction s as [|c s IH]; intros acc F; simpl; trivial.
  simpl in F. apply andb_prop in F. destruct F as [Hc F].
  unfold not_RP in Hc. apply negb_true_iff in Hc. rewrite Hc.
  now apply IH.
Qed.

(** Each round of [exec] finds the next span of the one-pass scan, and
    leaves a shorter text. *)
Lemma exec_spans (n : nat) (s : str) :
  List.length s <= n ->
  match exec s with
  | None => spans None s = []
  | Some (x, rest) =>
      spans None s = x :: spans None rest /\
      List.length rest < List.length s
  end.
Proof.
  revert s. induction n as [|n IH]; intros s L.
  - destruct s; [reflexivity | simpl in L; lia].
  - destruct s as [|c s]; [reflexivity|].
    simpl in L.
    destruct (N.eq_dec c LP) as [->|Hc].
    + destruct (first_RP s) as [(g & r & -> & F) | F].
      * destruct g as [|d g].
        -- simpl app.
           rewrite exec_cons, speakerPattern_empty_parens, exec_cons.
           rewrite speakerPattern_not_LP by discriminate.
           specialize (IH r). simpl in L.
           destruct (exec r) as [[x rest]|].
           ++ destruct IH as [E Lr]; [lia|]. simpl. split; [exact E | lia].
           ++ simpl. apply IH. lia.
        -- rewrite exec_cons.
           rewrite (speakerPattern_intro (d :: g) r); [|discriminate|trivial].
           split.
           ++ change (spans None (LP :: (d :: g) ++ RP :: r))
                with (spans (Some []) ((d :: g) ++ RP :: r)).
              now rewrite spans_inside_run.
           ++ simpl. rewrite length_app. simpl. lia.
      * rewrite exec_no_RP.
        -- simpl. now apply spans_inside_no_RP.
        -- simpl. now rewrite F.
    + rewrite exec_cons, speakerPattern_not_LP; trivial.
      simpl spans. apply N.eqb_neq in Hc. rewrite Hc.
      specialize (IH s).
      destruct (exec s) as [[x rest]|].
      * destruct IH as [E Lr]; [lia|]. split; [exact E | simpl; lia].
      * apply IH. lia.
Qed.

(** The loop has fuel enough: it adds the spans of the one-pass scan, in
    their order. *)
Lemma collect_spans (fuel : nat) (s : str) (speakers : list str) :
  List.length s < fuel ->
  collect fuel s speakers = fold_left addSpeaker (spans None s) speakers.
Proof.
  revert s speakers. induction fuel as [|fuel IH]; intros s speakers L; [lia|].
  simpl. pose proof (exec_spans (List.length s) s (le_n _)) as X.
  destruct (exec s) as [[x rest]|].
  - destruct X as [E Lr]. rewrite E. simpl. apply IH. lia.
  - now rewrite X.
Qed.

(** More fuel than the loop is given changes nothing. *)
Lemma collect_fuel (fuel : nat) (s : str) (speakers : list str) :
  List.length s < fuel ->
  collect fuel s speakers = collect (S (List.length s)) s speakers.
Proof.
  intros L. rewrite !collect_spans; trivial. lia.
Qed.

Lemma capturedFrom_nil (b : bool) (x : str) : ~ capturedFrom b [] x.
Proof.
  intros (pre & post & E & _). now destruct pre.
Qed.

Lemma capturedFrom_cons (b : bool) (c : char) (s x : str) :
  capturedFrom b (c :: s) x <->
  (b = false /\ c = LP /\ closesRun [] s x) \/
  capturedFrom (if (c =? LP)%N then true
                else if (c =? RP)%N then false else b) s x.
Proof.
  split.
  - intros (pre & post & E & Hx & F & O).
    destruct pre as [|d pre]; simpl in E, O.
    + left. injection E as -> ->. repeat split; trivial.
      now exists x, post.
    + right. injection E as <- ->. now exists pre, post.
  - intros [(-> & -> & g & post & -> & F & -> & Hx) | (pre & post & -> & Hx & F & O)].
    + now exists [], post.
    + now exists (c :: pre), post.
Qed.

Lemma closesRun_nil (acc x : str) : ~ closesRun acc [] x.
Proof.
  intros (g & post & E & _). now destruct g.
Qed.

Lemma closesRun_RP (acc s x : str) :
  closesRun acc (RP :: s) x <-> x = acc /\ x <> [].
Proof.
  split.
  - intros (g & post & E & F & -> & Hx).
    destruct g as [|d g].
    + now rewrite app_nil_r in *.
    + injection E as <- _. discriminate F.
  - intros [-> Hx]. exists [], s. now rewrite app_nil_r.
Qed.

Lemma closesRun_other (acc s x : str) (c : char) :
  c <> RP ->
  closesRun acc (c :: s) x <-> closesRun (acc ++ [c]) s x.
Proof.
  intros Hc. split.
  - intros (g & post & E & F & -> & Hx).
    destruct g as [|d g].
    + injection E as -> _. contradiction.
    + injection E as <- ->. simpl in F. apply andb_prop in F.
      exists g, post. rewrite <- app_assoc. now repeat split.
  - intros (g & post & -> & F & -> & Hx).
    exists (c :: g), post. rewrite <- app_assoc in *.
    repeat split; trivial.
    simpl. apply not_RP_true in Hc. now rewrite Hc, F.
Qed.

(** The one-pass scan finds exactly the captured spans. *)
Lemma spans_captured (s : str) (inside : option str) (x : str) :
  In x (spans inside s) <->
  match inside with
  | None => capturedFrom false s x
  | Some acc => closesRun acc s x \/ capturedFrom true s x
  end.
Proof.
  revert inside. induction s as [|c s IH]; intros inside.
  - simpl. destruct inside as [acc|]; split; try contradiction.
    + intros [H|H]; [now apply closesRun_nil in H | now apply capturedFrom_nil in H].
    + apply capturedFrom_nil.
  - destruct inside as [acc|]; simpl spans.
    + rewrite capturedFrom_cons.
      destruct (c =? RP)%N eqn:Ec.
      * apply N.eqb_eq in Ec. subst c. simpl.
        rewrite closesRun_RP.
        destruct acc as [|a acc].
        -- rewrite (IH None). split; [tauto|].
           intros [[-> H] | [(H & _) | H]]; [contradiction | discriminate | trivial].
        -- simpl. rewrite (IH None). split.
           ++ intros [<- | H]; [left; split; [trivial|discriminate] | tauto].
           ++ intros [[-> _] | [(H & _) | H]]; [now left | discriminate | now right].
      * apply N.eqb_neq in Ec.
        rewrite (IH (Some (acc ++ [c]))), (closesRun_other _ _ _ _ Ec).
        destruct (c =? LP)%N; split.
        -- tauto.
        -- intros [H | [(H & _) | H]]; [tauto | discriminate | tauto].
        -- tauto.
        -- intros [H | [(H & _) | H]]; [tauto | discriminate | tauto].
    + rewrite capturedFrom_cons.
      destruct (c =? LP)%N eqn:Ec.
      * apply N.eqb_eq in Ec. subst c.
        rewrite (IH (Some [])). split.
        -- intros [H|H]; [left; now repeat split | now right].
        -- intros [(_ & _ & H) | H]; [now left | now right].
      * apply N.eqb_neq in Ec. rewrite (IH None).
        destruct (c =? RP)%N; split; try tauto;
          intros [(_ & H & _) | H]; trivial; contradiction.
Qed.

(** ** extractSpeakers: the set and the sort *)

Lemma str_eqb_eq (a b : str) : str_eqb a b = true <-> a = b.
Proof.
  revert b. induction a as [|x a IH]; intros [|y b]; simpl;
    try (split; [discriminate | discriminate]); [tauto|].
  rewrite andb_true_iff, N.eqb_eq, IH. split.
  - now intros [-> ->].
  - now intros [= -> ->].
Qed.

Lemma existsb_str_eqb (x : str) (l : list str) :
  existsb (str_eqb x) l = true <-> In x l.
Proof.
  rewrite existsb_exists. split.
  - intros (y & Hy & E). apply str_eqb_eq in E. now subst.
  - intros H. exists x. split; trivial. now apply str_eqb_eq.
Qed.

Lemma set_add_In (x y : str) (l : list str) :
  In y (set_add x l) <-> y = x \/ In y l.
Proof.
  unfold set_add. destruct (existsb (str_eqb x) l) eqn:E.
  - apply existsb_str_eqb in E. split; [tauto|]. intros [->|H]; trivial.
  - rewrite in_app_iff. simpl. split; intros H; intuition.
Qed.

Lemma set_add_NoDup (x : str) (l : list str) :
  NoDup l -> NoDup (set_add x l).
Proof.
  intros H. unfold set_add. destruct (existsb (str_eqb x) l) eqn:E; trivial.
  assert (N : ~ In x l).
  { intros I. apply existsb_str_eqb in I. congruence. }
  clear E. induction H as [|y l Hy Hl IH]; simpl.
  - constructor; [intros [] | constructor].
  - constructor.
    + rewrite in_app_iff. simpl. intros [I | [-> | []]]; [tauto|].
      apply N. now left.
    + apply IH. intros I. apply N. now right.
Qed.

Lemma includes_In (c : char) (s : str) : includes c s = true <-> In c s.
Proof.
  unfold includes. rewrite existsb_exists. split.
  - intros (d & Hd & E). apply N.eqb_eq in E. now subst.
  - intros H. exists c. split; trivial. apply N.eqb_refl.
Qed.

Lemma fold_addSpeaker_In (l speakers : list str) (x : str) :
  In x (fold_left addSpeaker l speakers) <->
  In x speakers \/ (In x l /\ x <> [] /\ ~ In SP x).
Proof.
  revert speakers. induction l as [|y l IH]; intros speakers; simpl.
  - tauto.
  - rewrite IH. unfold addSpeaker.
    destruct (truthy y && negb (includes SP y)) eqn:K.
    + apply andb_prop in K. destruct K as [T I].
      apply negb_true_iff in I.
      assert (~ In SP y).
      { intros C. apply includes_In in C. congruence. }
      assert (y <> []) by (destruct y; [discriminate T | discriminate]).
      rewrite set_add_In. split.
      * intros [[-> | H1] | H1]; tauto.
      * intros [H1 | [[-> | H1] H2]]; tauto.
    + split; [tauto|].
      intros [H1 | [[-> | H1] [H2 H3]]]; try tauto.
      exfalso. apply andb_false_iff in K. destruct K as [K|K].
      * destruct x; [contradiction | discriminate K].
      * apply negb_false_iff, includes_In in K. contradiction.
Qed.

Lemma fold_addSpeaker_NoDup (l speakers : list str) :
  NoDup speakers -> NoDup (fold_left addSpeaker l speakers).
Proof.
  revert speakers. induction l as [|y l IH]; intros speakers H; simpl; trivial.
  apply IH. unfold addSpeaker.
  destruct (truthy y && negb (includes SP y)); trivial.
  now apply set_add_NoDup.
Qed.

Lemma str_compare_refl (a : str) : str_compare a a = Eq.
Proof.
  induction a as [|x a IH]; simpl; trivial. now rewrite N.compare_refl.
Qed.

Lemma str_compare_Eq (a b : str) : str_compare a b = Eq -> a = b.
Proof.
  revert b. induction a as [|x a IH]; intros [|y b]; simpl;
    try discriminate; trivial.
  destruct (x ?= y)%N eqn:E; try discriminate.
  apply N.compare_eq_iff in E. intros H. f_equal; auto.
Qed.

Lemma str_compare_antisym (a b : str) :
  str_compare b a = CompOpp (str_compare a b).
Proof.
  revert b. induction a as [|x a IH]; intros [|y b]; simpl; trivial.
  rewrite (N.compare_antisym x y).
  destruct (x ?= y)%N; simpl; auto.
Qed.

Lemma str_lt_trans (a b c : str) : str_lt a b -> str_lt b c -> str_lt a c.
Proof.
  unfold str_lt. revert b c.
  induction a as [|x a IH]; intros [|y b] [|z c]; simpl;
    try discriminate; trivial.
  destruct (x ?= y)%N eqn:Exy; destruct (y ?= z)%N eqn:Eyz;
    try discriminate; intros H1 H2.
  - apply N.compare_eq_iff in Exy, Eyz. subst.
    rewrite N.compare_refl. eauto.
  - apply N.compare_eq_iff in Exy. subst. now rewrite Eyz.
  - apply N.compare_eq_iff in Eyz. subst. now rewrite Exy.
  - assert (Exz : (x ?= z)%N = Lt).
    { apply N.compare_lt_iff in Exy. apply N.compare_lt_iff in Eyz.
      apply N.compare_lt_iff. eapply N.lt_trans; eassumption. }
    now rewrite Exz.
Qed.

Lemma str_le_cases (a b : str) : str_le a b <-> a = b \/ str_lt a b.
Proof.
  unfold str_le, str_leb, str_lt. split.
  - destruct (str_compare a b) eqn:E; try discriminate; intros _.
    + left. now apply str_compare_Eq.
    + now right.
  - intros [-> | ->]; trivial. now rewrite str_compare_refl.
Qed.

Lemma str_le_trans (a b c : str) : str_le a b -> str_le b c -> str_le a c.
Proof.
  rewrite !str_le_cases. intros [-> | H1] [-> | H2]; auto.
  right. eapply str_lt_trans; eauto.
Qed.

Lemma str_leb_total (a b : str) : str_leb a b = false -> str_le b a.
Proof.
  unfold str_le, str_leb. rewrite (str_compare_antisym a b).
  now destruct (str_compare a b).
Qed.

Lemma insert_Permutation (x : str) (l : list str) :
  Permutation (insert x l) (x :: l).
Proof.
  induction l as [|y l IH]; simpl; [reflexivity|].
  destruct (str_leb x y); [reflexivity|].
  rewrite IH. apply perm_swap.
Qed.

Lemma sort_Permutation (l : list str) : Permutation (sort l) l.
Proof.
  induction l as [|x l IH]; simpl; [reflexivity|].
  rewrite insert_Permutation. now constructor.
Qed.

Lemma insert_Sorted (x : str) (l : list str) :
  Sorted str_le l -> Sorted str_le (insert x l).
Proof.
  induction 1 as [|y l Hl IH Hd]; simpl.
  - repeat constructor.
  - destruct (str_leb x y) eqn:E.
    + constructor; [now constructor | now constructor].
    + constructor; trivial.
      apply str_leb_total in E.
      destruct l as [|z l]; simpl.
      * now constructor.
      * destruct (str_leb x z); constructor; trivial.
        now inversion Hd.
Qed.

Lemma sort_Sorted (l : list str) : Sorted str_le (sort l).
Proof.
  induction l as [|x l IH]; simpl; [constructor | now apply insert_Sorted].
Qed.

Lemma sort_StronglySorted (l : list str) :
  NoDup l -> StronglySorted str_lt (sort l).
Proof.
  intros N.
  assert (S : StronglySorted str_le (sort l)).
  { apply Sorted_StronglySorted; [|apply sort_Sorted].
    intros a b c. apply str_le_trans. }
  assert (D : NoDup (sort l)).
  { eapply Permutation_NoDup; [|exact N]. symmetry. apply sort_Permutation. }
  clear N. induction S as [|x r S IH F]; [constructor|].
  inversion D as [|? ? Hx Hr]; subst.
  constructor; [now apply IH|].
  rewrite Forall_forall in *. intros y Hy.
  destruct (proj1 (str_le_cases x y) (F y Hy)) as [-> | H]; [contradiction | trivial].
Qed.

(** ** extractSpeakers: the claim *)

(** What the loop has collected when it ends: the captured spans that
    hold no space character, each once. *)
Lemma collect_captured (input : str) :
  NoDup (collect (S (List.length input)) input []) /\
  forall x,
    In x (collect (S (List.length input)) input []) <->
    captured input x /\ ~ In SP x.
Proof.
  rewrite collect_spans by lia. split.
  - apply fold_addSpeaker_NoDup. constructor.
  - intros x. rewrite fold_addSpeaker_In, (spans_captured input None x).
    unfold captured. split.
    + intros [[] | (H & _ & N)]. now split.
    + intros [H N]. right. repeat split; trivial.
      now destruct H as (pre & post & _ & Hx & _).
Qed.

(** C6, as the code has it.  extractSpeakers scans the whole text, not
    line by line.  The spans it collects are those that stand between an
    opening parenthesis and the next closing one, are not empty, begin
    where the text before does not end inside a parenthesis still open,
    and hold no space character; such a span may hold an opening
    parenthesis or white space other than the space.  The result is the
    list of these spans, each once, in increasing order of code units,
    joined by comma and space; on "a (BOB) b (ALICE) c (BOB)" it is
    "ALICE, BOB". *)
Theorem extractSpeakers_collects_captured (input : str) :
  extractSpeakers input = join (lit ", ") (speakerList input) /\
  StronglySorted str_lt (speakerList input) /\
  (forall x, In x (speakerList input) <-> captured input x /\ ~ In SP x) /\
  extractSpeakers (lit "a (BOB) b (ALICE) c (BOB)") = lit "ALICE, BOB".
Proof.
  destruct (collect_captured input) as [D C].
  split; [reflexivity|]. split; [|split].
  - now apply sort_StronglySorted.
  - intros x. rewrite <- C. unfold speakerList.
    split; apply Permutation_in;
      [apply sort_Permutation | symmetry; apply sort_Permutation].
  - reflexivity.
Qed.

(** In "((BOB)" the token BOB stands in parentheses and is not collected:
    the result is "(BOB".  In "(A<tab>B)" nothing is a parenthesized span
    of characters that are not white space, and "A<tab>B" is collected. *)
Lemma extractSpeakers_not_token_spans :
  (tokenSpan (lit "((BOB)") (lit "BOB") /\
   ~ In (lit "BOB") (speakerList (lit "((BOB)")) /\
   extractSpeakers (lit "((BOB)") = lit "(BOB") /\
  (In (lit "A" ++ TAB :: lit "B")
      (speakerList (LP :: lit "A" ++ TAB :: lit "B)")) /\
   ~ tokenSpan (LP :: lit "A" ++ TAB :: lit "B)") (lit "A" ++ TAB :: lit "B")).
Proof.
  split; [split; [|split] | split].
  - exists (lit "("), []. now repeat split.
  - vm_compute. intros [H | []]. discriminate H.
  - reflexivity.
  - vm_compute. now left.
  - intros (pre & post & _ & _ & F). vm_compute in F. discriminate F.
Qed.

(** * Further properties *)

(** ** The line pattern, completely *)

Section LazyFacts.
Variable A : Type.
Implicit Types (k : str -> str -> option A) (p : char -> bool).

Lemma lazy_plus_None p s k :
  lazy_plus p s k = None ->
  forall m r, s = m ++ r -> m <> [] -> forallb p m = true -> k m r = None.
Proof.
  revert k. induction s as [|c s IH]; intros k H m r E Hm F.
  - symmetry in E. apply app_eq_nil in E. now destruct E.
  - destruct m as [|d m]; [contradiction|].
    injection E as <- E. simpl in F. apply andb_prop in F.
    destruct F as [Hc F]. simpl in H. rewrite Hc in H.
    destruct (k [c] s) eqn:K; [discriminate|].
    destruct m as [|e m].
    + simpl in E. now subst.
    + apply (IH (fun m0 r0 => k (c :: m0) r0) H (e :: m) r E);
        [discriminate | exact F].
Qed.

(** The match found is the one with the shortest first piece. *)
Lemma lazy_plus_shortest p s k a :
  lazy_plus p s k = Some a ->
  exists m r,
    s = m ++ r /\ m <> [] /\ forallb p m = true /\ k m r = Some a /\
    forall m' r', s = m' ++ r' -> m' <> [] ->
                  List.length m' < List.length m -> k m' r' = None.
Proof.
  revert k. induction s as [|c s IH]; intros k; simpl; [discriminate|].
  destruct (p c) eqn:Hc; [|discriminate].
  destruct (k [c] s) eqn:Hk.
  - intros [= <-]. exists [c], s. simpl. rewrite Hc.
    repeat split; trivial; [discriminate|].
    intros m' r' _ Hm' L. destruct m'; [contradiction | simpl in L; lia].
  - intros H. apply IH in H.
    destruct H as (m & r & -> & Hm & F & K & Min).
    exists (c :: m), r. simpl. rewrite Hc, F.
    repeat split; trivial; [discriminate|].
    intros m' r' E Hm' L.
    destruct m' as [|d m']; [contradiction|].
    injection E as <- E.
    destruct m' as [|e m'].
    + simpl in E. now subst.
    + apply (Min (e :: m') r' E); [discriminate | simpl in *; lia].
Qed.

Lemma lazy_plus_intro p m r k a :
  m <> [] -> forallb p m = true -> k m r = Some a ->
  (forall m1 m2, m = m1 ++ m2 -> m1 <> [] -> m2 <> [] ->
                 k m1 (m2 ++ r) = None) ->
  lazy_plus p (m ++ r) k = Some a.
Proof.
  revert k. induction m as [|c m IH]; intros k Hm F K Min; [contradiction|].
  simpl in F. apply andb_prop in F. destruct F as [Hc F].
  simpl. rewrite Hc.
  destruct m as [|d m].
  - simpl. now rewrite K.
  - rewrite (Min [c] (d :: m)); try discriminate; trivial.
    apply IH; trivial; [discriminate|].
    intros m1 m2 E H1 H2. apply (Min (c :: m1) m2); trivial;
      [now rewrite E | discriminate].
Qed.
End LazyFacts.

Lemma is_space_LP : is_space LP = false.
Proof. reflexivity. Qed.

Lemma is_space_RP : is_space RP = false.
Proof. reflexivity. Qed.

Lemma label_tail_intro (ws g2 : str) :
  forallb is_space ws = true -> g2 <> [] -> forallb not_RP g2 = true ->
  label_tail (ws ++ LP :: g2 ++ [RP]) = Some g2.
Proof.
  intros Hws Hg F. unfold label_tail.
  apply greedy_star_longest; [exact Hws | exact is_space_LP |].
  destruct g2 as [|c g]; [contradiction|].
  simpl in F. apply andb_prop in F. destruct F as [Hc F].
  simpl. rewrite Hc.
  apply greedy_star_longest; [exact F | reflexivity | reflexivity].
Qed.

(** A run of one class ends at the first character outside it. *)
Lemma run_unique (p : char -> bool) (a c b d : str) (x y : char) :
  forallb p a = true -> forallb p c = true ->
  p x = false -> p y = false ->
  a ++ x :: b = c ++ y :: d -> a = c /\ x = y /\ b = d.
Proof.
  revert c. induction a as [|u a IH]; intros [|v c] Fa Fc Hx Hy E;
    simpl in *.
  - now injection E as -> ->.
  - injection E as -> _. apply andb_prop in Fc. destruct Fc; congruence.
  - injection E as -> _. apply andb_prop in Fa. destruct Fa; congruence.
  - injection E as -> E.
    apply andb_prop in Fa, Fc. destruct Fa as [_ Fa], Fc as [_ Fc].
    destruct (IH c Fa Fc Hx Hy E) as (-> & -> & ->). now repeat split.
Qed.

Lemma app_eq_length {T : Type} (a c b d : list T) :
  List.length a = List.length c -> a ++ b = c ++ d -> a = c /\ b = d.
Proof.
  revert c. induction a as [|x a IH]; intros [|y c] L E;
    simpl in *; try discriminate; [now split|].
  injection E as -> E. injection L as L.
  destruct (IH c L E) as [-> ->]. now split.
Qed.

(** Two ways of cutting one string: the shorter first piece is a prefix
    of the longer. *)
Lemma app_eq_prefix {T : Type} (a c b d : list T) :
  a ++ b = c ++ d -> List.length a <= List.length c ->
  exists e, c = a ++ e /\ b = e ++ d.
Proof.
  revert c. induction a as [|x a IH]; intros c E L.
  - exists c. now split.
  - destruct c as [|y c]; [simpl in L; lia|].
    injection E as -> E. simpl in L.
    destruct (IH c E) as (e & -> & ->); [lia|]. now exists e.
Qed.

Lemma speakerMatch_shortest (s g1 g2 : str) :
  speakerMatch s = Some (g1, g2) ->
  forall g1' ws' g2', labelled s g1' ws' g2' ->
    List.length g1 <= List.length g1'.
Proof.
  unfold speakerMatch. intros H g1' ws' g2' (E & Hg1 & F1 & Fw & Hg2 & F2).
  apply lazy_plus_shortest in H.
  destruct H as (m & r & Es & Hm & Fm & K & Min).
  destruct (label_tail r) as [g|]; [|discriminate].
  injection K as -> ->.
  destruct (Nat.le_gt_cases (List.length g1) (List.length g1')) as [L|L]; trivial.
  exfalso.
  specialize (Min g1' (ws' ++ LP :: g2' ++ [RP])).
  cbv beta in Min. rewrite label_tail_intro in Min; trivial.
  assert (X : None = Some (g1', g2')) by (symmetry; apply Min; trivial; congruence).
  discriminate X.
Qed.

(** A match gives the reading of the line. *)
Lemma speakerMatch_labelled (s g1 g2 : str) :
  speakerMatch s = Some (g1, g2) -> exists ws, labelled s g1 ws g2.
Proof.
  intros H. apply speakerMatch_Some in H.
  destruct H as (ws & H). exists ws. exact H.
Qed.

Lemma labelled_match (s g1 ws g2 : str) :
  labelled s g1 ws g2 -> exists m, speakerMatch s = Some m.
Proof.
  intros (E & Hg1 & F1 & Fw & Hg2 & F2).
  destruct (speakerMatch s) as [m|] eqn:M; [now exists m|].
  exfalso. unfold speakerMatch in M.
  pose proof (lazy_plus_None _ _ _ _ M g1 (ws ++ LP :: g2 ++ [RP]) E Hg1 F1) as K.
  cbv beta in K. rewrite label_tail_intro in K; trivial. discriminate K.
Qed.

(** The groups of the match: the reading of the line with the shortest
    text, and only that one. *)
Lemma labelled_shortest_match (s g1 ws g2 : str) :
  labelled s g1 ws g2 ->
  (forall g1' ws' g2', labelled s g1' ws' g2' ->
     List.length g1 <= List.length g1') ->
  speakerMatch s = Some (g1, g2).
Proof.
  intros L Min.
  destruct (labelled_match _ _ _ _ L) as [[m g] M].
  destruct (speakerMatch_labelled _ _ _ M) as (wm & Lm).
  pose proof (speakerMatch_shortest _ _ _ M _ _ _ L) as L1.
  pose proof (Min _ _ _ Lm) as L2.
  destruct L as (E & _ & _ & Fw & _ & _).
  destruct Lm as (Em & _ & _ & Fwm & _ & _).
  rewrite E in Em.
  destruct (app_eq_length g1 m _ _ (Nat.le_antisymm _ _ L2 L1) Em)
    as [<- Er].
  destruct (run_unique is_space _ _ _ _ _ _ Fw Fwm is_space_LP is_space_LP Er)
    as (_ & _ & Eg).
  apply app_inv_tail in Eg. now subst.
Qed.

Lemma label_tail_text_None (m r : str) :
  (exists d, In d m /\ is_space d = false) -> ~ In LP m ->
  label_tail (m ++ r) = None.
Proof.
  intros (d & Hd & Sd) NLP.
  destruct (label_tail (m ++ r)) as [g|] eqn:T; trivial. exfalso.
  apply label_tail_Some in T. destruct T as (ws & E & Fws & _).
  destruct (Nat.le_gt_cases (List.length m) (List.length ws)) as [L|L].
  - destruct (app_eq_prefix m ws r _ E L) as (e & -> & _).
    rewrite forallb_forall in Fws.
    rewrite (Fws d) in Sd; [discriminate|]. apply in_or_app. now left.
  - symmetry in E.
    destruct (app_eq_prefix ws m _ r E) as (e & -> & E'); [lia|].
    destruct e as [|x e].
    + rewrite app_nil_r in L. lia.
    + injection E' as <- _. apply NLP. apply in_or_app. right. now left.
Qed.

(** A line made of a text without opening parenthesis that does not end
    with white space, white space, and a token in parentheses: the groups
    are that text and that token. *)
Lemma speakerMatch_plain (p ws tok : str) :
  forallb not_line_terminator p = true -> ~ In LP p ->
  (exists p' d, p = p' ++ [d] /\ is_space d = false) ->
  forallb is_space ws = true ->
  tok <> [] -> forallb not_RP tok = true ->
  speakerMatch (p ++ ws ++ LP :: tok ++ [RP]) = Some (p, tok).
Proof.
  intros Fp NLP (p' & d & Ep & Sd) Fws Htok Ftok.
  unfold speakerMatch. apply lazy_plus_intro; trivial.
  - rewrite Ep. now destruct p'.
  - now rewrite label_tail_intro.
  - intros m1 m2 E H1 H2.
    rewrite label_tail_text_None; trivial.
    + exists d. split; trivial.
      destruct (exists_last H2) as (m2' & e & ->).
      rewrite Ep, app_assoc in E. apply app_inj_tail in E.
      destruct E as [_ ->]. apply in_or_app. right. now left.
    + intros I. apply NLP. rewrite E. apply in_or_app. now right.
Qed.

(** ** Strings that begin and end without white space *)

Lemma tight_ends (s : str) :
  tight s <->
  (exists c r, s = c :: r /\ is_space c = false) /\
  (exists v d, s = v ++ [d] /\ is_space d = false).
Proof.
  split.
  - intros (c & r & d & v & E & Hc & Er & Hd). split.
    + now exists c, r.
    + exists (rev v), d. split; trivial.
      rewrite <- (rev_involutive s), Er. reflexivity.
  - intros [(c & r & E & Hc) (v & d & Ev & Hd)].
    exists c, r, d, (rev v). repeat split; trivial.
    rewrite Ev, rev_app_distr. reflexivity.
Qed.

Lemma tight_trim (s : str) : tight s -> trim s = s.
Proof.
  intros (c & r & d & v & E & Hc & Er & Hd).
  unfold trim, trimStart, trimEnd.
  rewrite E, (dropWhile_fixed _ _ _ Hc), <- E, Er, (dropWhile_fixed _ _ _ Hd).
  now rewrite <- Er, rev_involutive.
Qed.

Lemma trim_tight (s : str) : trim s <> [] -> tight (trim s).
Proof.
  intros H. destruct (trim_shape s) as [E | (c & r & d & v & X)];
    [contradiction|].
  now exists c, r, d, v.
Qed.

Lemma tight_not_nil (s : str) : tight s -> s <> [].
Proof. intros (c & r & _ & _ & -> & _). discriminate. Qed.

Lemma tight_join (a m b : str) : tight a -> tight b -> tight (a ++ m ++ b).
Proof.
  rewrite !tight_ends.
  intros [(c & r & -> & Hc) _] [_ (v & d & -> & Hd)]. split.
  - now exists c, (r ++ m ++ v ++ [d]).
  - exists ((c :: r) ++ m ++ v), d. split; trivial.
    now rewrite <- !app_assoc.
Qed.

Lemma truthy_not_nil (s : str) : truthy s = true <-> s <> [].
Proof. destruct s; simpl; split; congruence. Qed.

(** Group 1 of a match on a trimmed line begins and ends without white
    space. *)
Lemma speakerMatch_tight (line g1 g2 : str) :
  speakerMatch (trim line) = Some (g1, g2) -> tight g1.
Proof.
  intros M.
  destruct (speakerMatch_labelled _ _ _ M) as (ws & L).
  pose proof L as (E & Hg1 & F1 & Fw & Hg2 & F2).
  assert (T : tight (trim line)).
  { apply trim_tight. rewrite E. now destruct g1. }
  apply tight_ends in T. destruct T as [(c & r & Ec & Hc) _].
  apply tight_ends. split.
  - destruct g1 as [|c' g1']; [contradiction|].
    rewrite Ec in E. injection E as <- _. now exists c, g1'.
  - destruct (exists_last Hg1) as (v & d & Ev). exists v, d.
    split; trivial.
    destruct (is_space d) eqn:Sd; trivial. exfalso.
    destruct v as [|c' v'].
    + subst g1. rewrite Ec in E. injection E as <- _. congruence.
    + assert (L' : labelled (trim line) (c' :: v') (d :: ws) g2).
      { subst g1. rewrite forallb_app in F1. apply andb_prop in F1.
        repeat split; trivial.
        - rewrite E, <- app_assoc. reflexivity.
        - discriminate.
        - apply F1.
        - simpl. now rewrite Sd, Fw. }
      pose proof (speakerMatch_shortest _ _ _ M _ _ _ L') as Len.
      subst g1. rewrite length_app in Len. simpl in Len. lia.
Qed.

(** ** parseTranscript: the steps of the loop *)

Lemma step_blank (st : ParseState) (line : str) :
  nonBlank line = false -> step st line = st.
Proof.
  unfold nonBlank, step. now intros ->.
Qed.

Lemma step_trim (st : ParseState) (line : str) :
  step st (trim line) = step st line.
Proof.
  unfold step. now rewrite trim_idempotent.
Qed.

Lemma step_label (st : ParseState) (line g1 g2 : str) :
  speakerMatch (trim line) = Some (g1, g2) ->
  step st line
  = {| segments := flush st; currentSpeaker := Some g2; currentText := g1 |}.
Proof.
  intros M. unfold step. rewrite M.
  destruct (trim line); [discriminate M | reflexivity].
Qed.

Lemma step_continuation (st : ParseState) (line : str) :
  nonBlank line = true -> is_label_line line = false ->
  step st line
  = {| segments := segments st;
       currentSpeaker := currentSpeaker st;
       currentText := currentText st ++ SP :: trim line |}.
Proof.
  unfold nonBlank, is_label_line, step. intros -> H. simpl.
  now destruct (speakerMatch (trim line)) as [[g1 g2]|].
Qed.

Lemma flush_withSegments (pre : list Segment) (st : ParseState) :
  flush (withSegments pre st) = pre ++ flush st.
Proof.
  unfold flush, withSegments. simpl.
  destruct (currentSpeaker st) as [sp|]; trivial.
  destruct (truthy sp && truthy (currentText st)); trivial.
  now rewrite app_assoc.
Qed.

Lemma step_withSegments (pre : list Segment) (st : ParseState) (line : str) :
  step (withSegments pre st) line = withSegments pre (step st line).
Proof.
  unfold step.
  destruct (truthy (trim line)); simpl; trivial.
  destruct (speakerMatch (trim line)) as [[g1 g2]|]; trivial.
  unfold withSegments at 2. simpl. now rewrite flush_withSegments.
Qed.

Lemma fold_withSegments (pre : list Segment) (lines : list str)
    (st : ParseState) :
  fold_left step lines (withSegments pre st)
  = withSegments pre (fold_left step lines st).
Proof.
  revert st. induction lines as [|l lines IH]; intros st; simpl; trivial.
  now rewrite step_withSegments, IH.
Qed.

(** What comes before a label line is parsed on its own. *)
Lemma parseLines_app_label (a b : list str) (l : str) :
  is_label_line l = true ->
  parseLines (a ++ l :: b) = parseLines a ++ parseLines (l :: b).
Proof.
  unfold is_label_line. intros H.
  destruct (speakerMatch (trim l)) as [[g1 g2]|] eqn:M; [|discriminate].
  unfold parseLines. rewrite fold_left_app. simpl.
  rewrite !(step_label _ _ _ _ M).
  set (st := fold_left step a initialState).
  change (flush initialState) with (@nil Segment).
  assert (E : {| segments := flush st; currentSpeaker := Some g2;
                 currentText := g1 |}
              = withSegments (flush st)
                  {| segments := []; currentSpeaker := Some g2;
                     currentText := g1 |}).
  { unfold withSegments. simpl. now rewrite app_nil_r. }
  now rewrite E, fold_withSegments, flush_withSegments.
Qed.

Lemma split_lines_app (a b : str) :
  split_lines (a ++ LF :: b) = split_lines a ++ split_lines b.
Proof.
  induction a as [|c a IH]; simpl.
  - reflexivity.
  - destruct (c =? LF)%N.
    + now rewrite IH.
    + rewrite IH. destruct (split_lines a) as [|l ls] eqn:S; trivial.
      now apply split_lines_not_nil in S.
Qed.

Lemma fold_continuation (conts : list str) (st : ParseState) :
  forallb (fun l => negb (is_label_line l)) conts = true ->
  fold_left step conts st
  = {| segments := segments st;
       currentSpeaker := currentSpeaker st;
       currentText := currentText st ++ continuation conts |}.
Proof.
  revert st. induction conts as [|l conts IH]; intros st H; simpl in *.
  - unfold continuation. simpl. rewrite app_nil_r. now destruct st.
  - apply andb_prop in H. destruct H as [Hl H]. apply negb_true_iff in Hl.
    unfold continuation in *. simpl.
    destruct (nonBlank l) eqn:B.
    + rewrite IH, (step_continuation _ _ B Hl); trivial. simpl.
      now rewrite <- app_assoc.
    + rewrite (step_blank _ _ B). now apply IH.
Qed.

Lemma tight_continuation (conts : list str) (t : str) :
  tight t -> tight (t ++ continuation conts).
Proof.
  revert t. induction conts as [|l conts IH]; intros t T;
    unfold continuation in *; simpl.
  - now rewrite app_nil_r.
  - destruct (nonBlank l) eqn:B; [|now apply IH].
    simpl. change (t ++ SP :: trim l ++ ?x) with (t ++ [SP] ++ trim l ++ x).
    rewrite !app_assoc. apply IH. rewrite <- app_assoc.
    apply tight_join; trivial. apply trim_tight.
    now apply truthy_not_nil.
Qed.

(** A label line and the lines up to the next label: one segment, whose
    text is group 1 and the continuation, untouched by the final trim. *)
Lemma parseLines_turn (l g1 g2 : str) (conts : list str) :
  speakerMatch (trim l) = Some (g1, g2) ->
  forallb (fun c => negb (is_label_line c)) conts = true ->
  parseLines (l :: conts)
  = [ {| speaker := g2; text := g1 ++ continuation conts |} ].
Proof.
  intros M H. unfold parseLines. simpl.
  rewrite (step_label _ _ _ _ M), (fold_continuation _ _ H). simpl.
  destruct (speakerMatch_labelled _ _ _ M) as (ws & _ & _ & _ & _ & Hg2 & _).
  pose proof (tight_continuation conts g1 (speakerMatch_tight _ _ _ M)) as T.
  unfold flush. simpl.
  apply truthy_not_nil in Hg2. rewrite Hg2.
  rewrite (proj2 (truthy_not_nil _) (tight_not_nil _ T)). simpl.
  now rewrite (tight_trim _ T).
Qed.

(** ** parseTranscript: one segment for each label line *)

Lemma flush_speakers (st : ParseState) :
  stateOk st ->
  map speaker (flush st) = map speaker (segments st) ++ pending st.
Proof.
  intros [_ H]. unfold flush, pending.
  destruct (currentSpeaker st) as [sp|]; [|now rewrite app_nil_r].
  destruct (H sp eq_refl) as (Hsp & c & r & -> & _).
  apply truthy_not_nil in Hsp. rewrite Hsp. simpl.
  now rewrite map_app.
Qed.

Lemma step_speakers (st : ParseState) (line : str) :
  stateOk st ->
  map speaker (segments (step st line)) ++ pending (step st line)
  = (map speaker (segments st) ++ pending st) ++ labelOf line.
Proof.
  intros Hst. unfold labelOf.
  destruct (nonBlank line) eqn:B.
  - destruct (speakerMatch (trim line)) as [[g1 g2]|] eqn:M.
    + rewrite (step_label _ _ _ _ M). simpl.
      now rewrite flush_speakers.
    + rewrite step_continuation; trivial.
      * simpl. now rewrite app_nil_r.
      * unfold is_label_line. now rewrite M.
  - rewrite (step_blank _ _ B).
    unfold nonBlank in B. destruct (trim line); [|discriminate B].
    simpl. now rewrite app_nil_r.
Qed.

Lemma fold_speakers (lines : list str) (st : ParseState) :
  stateOk st ->
  map speaker (flush (fold_left step lines st))
  = (map speaker (segments st) ++ pending st) ++ flat_map labelOf lines.
Proof.
  revert st. induction lines as [|l lines IH]; intros st H; simpl.
  - rewrite app_nil_r. now apply flush_speakers.
  - rewrite IH by now apply step_ok.
    rewrite step_speakers by trivial. now rewrite <- app_assoc.
Qed.

(** ** parseTranscript: no newline in a segment *)

Lemma dropWhile_incl (p : char -> bool) (s : str) (c : char) :
  In c (dropWhile p s) -> In c s.
Proof.
  induction s as [|d s IH]; simpl; trivial.
  destruct (p d); auto.
Qed.

Lemma trim_incl (s : str) (c : char) : In c (trim s) -> In c s.
Proof.
  unfold trim, trimEnd, trimStart. intros H.
  apply in_rev, dropWhile_incl in H. apply in_rev in H.
  now apply dropWhile_incl in H.
Qed.

Lemma flush_oneLine (st : ParseState) :
  stateOneLine st -> Forall oneLine (flush st).
Proof.
  intros (Hs & Hc & Ht). unfold flush.
  destruct (currentSpeaker st) as [sp|]; trivial.
  destruct (truthy sp && truthy (currentText st)); trivial.
  apply Forall_app. split; trivial.
  constructor; [|constructor].
  destruct (Hc sp eq_refl) as [H1 H2].
  repeat split; simpl; trivial.
  intros I. now apply trim_incl in I.
Qed.

Lemma step_oneLine (st : ParseState) (line : str) :
  ~ In LF line -> stateOneLine st -> stateOneLine (step st line).
Proof.
  intros Hl Hst.
  assert (Ht : ~ In LF (trim line)).
  { intros I. now apply trim_incl in I. }
  destruct (nonBlank line) eqn:B; [|now rewrite step_blank].
  destruct (speakerMatch (trim line)) as [[g1 g2]|] eqn:M.
  - rewrite (step_label _ _ _ _ M).
    destruct (speakerMatch_labelled _ _ _ M) as (ws & E & _ & _ & _ & _ & F).
    split; [|split]; simpl.
    + now apply flush_oneLine.
    + intros sp [= <-]. split.
      * intros I. apply Ht. rewrite E.
        apply in_or_app. right. apply in_or_app. right. right.
        apply in_or_app. now left.
      * now apply no_RP_not_In.
    + intros I. apply Ht. rewrite E. apply in_or_app. now left.
  - rewrite step_continuation; trivial.
    + destruct Hst as (Hs & Hc & Hx). split; [|split]; simpl; trivial.
      intros I. apply in_app_or in I. destruct I as [I | [I | I]]; auto.
      discriminate I.
    + unfold is_label_line. now rewrite M.
Qed.

Lemma fold_oneLine (lines : list str) (st : ParseState) :
  Forall (fun l => ~ In LF l) lines ->
  stateOneLine st -> stateOneLine (fold_left step lines st).
Proof.
  revert st. induction lines as [|l lines IH]; intros st H Hst; simpl; trivial.
  inversion H; subst. apply IH; trivial. now apply step_oneLine.
Qed.

(** ** Reading back annotated lines *)

Lemma renderTurn_tight (seg : Segment) :
  plainTurn seg -> tight (renderTurn seg).
Proof.
  intros (T & _). unfold renderTurn.
  apply tight_ends in T. destruct T as [(c & r & E & Hc) _].
  apply tight_ends. split.
  - rewrite E. now exists c, (r ++ SP :: LP :: speaker seg ++ [RP]).
  - exists (text seg ++ SP :: LP :: speaker seg), RP. split; trivial.
    now rewrite <- app_assoc.
Qed.

Lemma renderTurn_match (seg : Segment) :
  plainTurn seg ->
  speakerMatch (trim (renderTurn seg)) = Some (text seg, speaker seg).
Proof.
  intros P. rewrite (tight_trim _ (renderTurn_tight _ P)).
  destruct P as (T & F & NLP & Hs & Fs & _).
  apply tight_ends in T. destruct T as [_ (v & d & Ev & Hd)].
  unfold renderTurn.
  apply (speakerMatch_plain (text seg) [SP] (speaker seg)); trivial.
  now exists v, d.
Qed.

Lemma renderTurn_no_LF (seg : Segment) :
  plainTurn seg -> ~ In LF (renderTurn seg).
Proof.
  intros (_ & F & _ & _ & _ & N) I. unfold renderTurn in I.
  apply in_app_or in I. destruct I as [I | [I | [I | I]]];
    try discriminate I.
  - rewrite forallb_forall in F. apply F in I. discriminate I.
  - apply in_app_or in I. destruct I as [I | [I | []]];
      [contradiction | discriminate I].
Qed.

Lemma is_label_renderTurn (seg : Segment) :
  plainTurn seg -> is_label_line (renderTurn seg) = true.
Proof.
  intros P. unfold is_label_line. now rewrite renderTurn_match.
Qed.

Lemma parseLines_render (segs : list Segment) :
  Forall plainTurn segs -> parseLines (map renderTurn segs) = segs.
Proof.
  induction 1 as [|seg rest P Prest IH]; [reflexivity|].
  assert (One : parseLines [renderTurn seg] = [seg]).
  { rewrite (parseLines_turn _ _ _ [] (renderTurn_match _ P) eq_refl).
    unfold continuation. simpl. rewrite app_nil_r. now destruct seg. }
  destruct rest as [|seg2 rest]; [exact One|].
  simpl map in *.
  change (renderTurn seg :: renderTurn seg2 :: map renderTurn rest)
    with ([renderTurn seg] ++ renderTurn seg2 :: map renderTurn rest).
  rewrite parseLines_app_label, One, IH; trivial.
  apply is_label_renderTurn. now inversion Prest.
Qed.

Lemma parseTranscript_join (lines : list str) :
  lines <> [] -> Forall (fun l => ~ In LF l) lines ->
  parseTranscript (join [LF] lines) = parseLines lines.
Proof.
  intros N F. unfold parseTranscript. now rewrite split_join_lines.
Qed.

(** ** extractSpeakers: more on the scan *)

Lemma speakerList_In (s x : str) :
  In x (speakerList s) <-> In x (spans None s) /\ x <> [] /\ ~ In SP x.
Proof.
  unfold speakerList. rewrite collect_spans by lia.
  split.
  - intros H. apply (Permutation_in _ (sort_Permutation _)) in H.
    apply fold_addSpeaker_In in H. destruct H as [[] | H]. exact H.
  - intros H.
    apply (Permutation_in _ (Permutation_sym (sort_Permutation _))).
    apply fold_addSpeaker_In. now right.
Qed.

Lemma spans_skip (t r : str) :
  ~ In LP t -> spans None (t ++ r) = spans None r.
Proof.
  induction t as [|c t IH]; intros N; simpl; trivial.
  destruct (c =? LP)%N eqn:E.
  - apply N.eqb_eq in E. exfalso. apply N. now left.
  - apply IH. intros I. apply N. now right.
Qed.

Lemma spans_renderTurn (seg : Segment) (r : str) :
  plainTurn seg ->
  spans None (renderTurn seg ++ r) = speaker seg :: spans None r.
Proof.
  intros (_ & _ & NLP & Hs & Fs & _). unfold renderTurn.
  rewrite <- app_assoc, (spans_skip _ _ NLP).
  change (spans None ((SP :: LP :: speaker seg ++ [RP]) ++ r))
    with (spans (Some []) ((speaker seg ++ [RP]) ++ r)).
  rewrite <- app_assoc. simpl app.
  rewrite (spans_inside_run _ _ _ Fs). simpl.
  now destruct (speaker seg).
Qed.

Lemma spans_render (segs : list Segment) :
  Forall plainTurn segs ->
  spans None (join [LF] (map renderTurn segs)) = map speaker segs.
Proof.
  induction 1 as [|seg rest P Prest IH]; [reflexivity|].
  destruct rest as [|seg2 rest].
  - simpl. rewrite <- (app_nil_r (renderTurn seg)).
    now rewrite spans_renderTurn.
  - change (join [LF] (map renderTurn (seg :: seg2 :: rest)))
      with (renderTurn seg ++ LF :: join [LF] (map renderTurn (seg2 :: rest))).
    rewrite spans_renderTurn; trivial.
    change (spans None (LF :: ?x)) with (spans None x).
    now rewrite IH.
Qed.

(** After a text that does not end inside an open parenthesis the scan
    starts afresh. *)
Lemma spans_app_closed (a b : str) (st : option str) :
  open_from (isSome st) a = false ->
  spans st (a ++ b) = spans st a ++ spans None b.
Proof.
  revert st. induction a as [|c a IH]; intros st H.
  - destruct st; [discriminate H | reflexivity].
  - destruct st as [acc|]; simpl in *.
    + destruct (c =? RP)%N eqn:E.
      * apply N.eqb_eq in E. subst c. simpl in H.
        destruct acc; simpl; now rewrite (IH None).
      * destruct (c =? LP)%N; now apply (IH (Some (acc ++ [c]))).
    + destruct (c =? LP)%N.
      * now apply (IH (Some [])).
      * destruct (c =? RP)%N; now apply (IH None).
Qed.

(** ** parseTranscript and extractSpeakers: further theorems *)

(** X1.  The groups of a match are exactly the reading of the trimmed
    line as text, white space and parenthesized token in which the text
    is shortest: the text is not empty and holds no line terminator, the
    token is not empty and holds no closing parenthesis (it may hold white
    space and opening parentheses). *)
Theorem speakerMatch_characterised (s g1 g2 : str) :
  speakerMatch s = Some (g1, g2) <->
  (exists ws, labelled s g1 ws g2) /\
  (forall g1' ws' g2', labelled s g1' ws' g2' ->
     List.length g1 <= List.length g1').
Proof.
  split.
  - intros H. split.
    + now apply speakerMatch_labelled.
    + exact (speakerMatch_shortest s g1 g2 H).
  - intros [(ws & L) Min]. now apply (labelled_shortest_match s g1 ws g2).
Qed.

(** X2.  A line made of a text that neither begins nor ends with white
    space and holds no line terminator and no opening parenthesis, then
    any white space, then a token without closing parenthesis in
    parentheses, is its own trim and matches with that text and that
    token as groups. *)
Theorem plain_line_recognised (p ws tok : str) :
  tight p -> forallb not_line_terminator p = true -> ~ In LP p ->
  forallb is_space ws = true ->
  tok <> [] -> forallb not_RP tok = true ->
  trim (p ++ ws ++ LP :: tok ++ [RP]) = p ++ ws ++ LP :: tok ++ [RP] /\
  speakerMatch (p ++ ws ++ LP :: tok ++ [RP]) = Some (p, tok).
Proof.
  intros T F NLP Fws Htok Ftok. split.
  - apply tight_trim.
    assert (E : p ++ ws ++ LP :: tok ++ [RP]
                = p ++ (ws ++ LP :: tok) ++ [RP]).
    { now rewrite <- app_assoc. }
    rewrite E. apply tight_join; trivial.
    exists RP, [], RP, []. repeat split; reflexivity.
  - apply speakerMatch_plain; trivial.
    apply tight_ends in T. apply T.
Qed.

(** "So it goes   (Mr Smith)" gives the text and the two-word token. *)
Lemma plain_line_recognised_witness :
  speakerMatch (lit "So it goes   (Mr Smith)")
  = Some (lit "So it goes", lit "Mr Smith").
Proof.
  refine (proj2 (plain_line_recognised (lit "So it goes") (lit "   ")
                   (lit "Mr Smith") _ _ _ _ _ _)).
  - exists 83%N, (lit "o it goes"), 115%N, (rev (lit "So it goe")).
    repeat split; reflexivity.
  - reflexivity.
  - vm_compute. intuition discriminate.
  - reflexivity.
  - discriminate.
  - reflexivity.
Defined.

(** X3.  A line that is blank after trimming changes nothing: the text
    with such a line between two others parses as the text without it. *)
Theorem blank_line_ignored (a blank b : str) :
  trim blank = [] -> ~ In LF blank ->
  parseTranscript (a ++ LF :: blank ++ LF :: b)
  = parseTranscript (a ++ LF :: b).
Proof.
  intros B N. unfold parseTranscript.
  rewrite !split_lines_app, (split_lines_single _ N).
  unfold parseLines. rewrite !fold_left_app. simpl.
  rewrite step_blank; trivial.
  unfold nonBlank. now rewrite B.
Qed.

(** A line of two spaces and a tab between two turns. *)
Lemma blank_line_ignored_witness :
  parseTranscript
    (lit "Hi (BOB)" ++ LF :: (lit "  " ++ [TAB]) ++ LF :: lit "Yo (AL)")
  = parseTranscript (lit "Hi (BOB)" ++ LF :: lit "Yo (AL)").
Proof.
  apply blank_line_ignored.
  - reflexivity.
  - vm_compute. intuition discriminate.
Defined.

Lemma parseLines_trim (lines : list str) :
  parseLines (map trim lines) = parseLines lines.
Proof.
  unfold parseLines. generalize initialState.
  induction lines as [|l lines IH]; intros st; simpl; trivial.
  now rewrite step_trim, IH.
Qed.

(** X4.  White space around the lines does not count: the text whose
    lines are the trimmed lines of the input parses as the input.  A
    carriage return before each newline is such white space. *)
Theorem line_whitespace_ignored (input : str) :
  parseTranscript (join [LF] (map trim (split_lines input)))
  = parseTranscript input.
Proof.
  rewrite parseTranscript_join.
  - apply parseLines_trim.
  - pose proof (split_lines_not_nil input).
    now destruct (split_lines input).
  - apply Forall_map.
    eapply Forall_impl; [|apply split_lines_no_LF].
    intros l H I. apply H. now apply trim_incl in I.
Qed.

(** X5.  The speakers of the segments are the tokens of the label lines,
    one segment for each label line and in the order of the lines: no
    line that matches the pattern is dropped or merged. *)
Theorem speakers_are_labels (input : str) :
  map speaker (parseTranscript input)
  = flat_map labelOf (split_lines input).
Proof.
  unfold parseTranscript, parseLines.
  now rewrite (fold_speakers _ _ initialState_ok).
Qed.

(** X6.  A text cut before a label line parses as the two parts one
    after the other. *)
Theorem parseTranscript_app_label (a b : str) :
  is_label_line (hd [] (split_lines b)) = true ->
  parseTranscript (a ++ LF :: b) = parseTranscript a ++ parseTranscript b.
Proof.
  intros H. unfold parseTranscript. rewrite split_lines_app.
  destruct (split_lines b) as [|l rest]; [discriminate H|].
  now apply parseLines_app_label.
Qed.

(** Two turns, the second with a continuation line. *)
Lemma parseTranscript_app_label_witness :
  parseTranscript
    (lit "Hi (BOB)" ++ LF :: lit "Yo (AL)" ++ LF :: lit "and more")
  = parseTranscript (lit "Hi (BOB)")
    ++ parseTranscript (lit "Yo (AL)" ++ LF :: lit "and more").
Proof.
  apply parseTranscript_app_label. reflexivity.
Defined.

(** X7.  A label line followed by lines that are no label lines gives
    one segment: the speaker is group 2 and the text is group 1 followed,
    for each following line that is not blank, by a space and the trimmed
    line; the trim at the flush changes nothing. *)
Theorem label_turn_segment (l g1 g2 : str) (conts : list str) :
  speakerMatch (trim l) = Some (g1, g2) ->
  forallb (fun c => negb (is_label_line c)) conts = true ->
  parseLines (l :: conts)
  = [ {| speaker := g2; text := g1 ++ continuation conts |} ].
Proof. exact (parseLines_turn l g1 g2 conts). Qed.

(** A turn over three lines, one of them blank. *)
Lemma label_turn_segment_witness :
  parseLines [lit " Hello (BOB)"; lit "  "; lit " how are you  "]
  = [ {| speaker := lit "BOB"; text := lit "Hello how are you" |} ].
Proof.
  apply (label_turn_segment (lit " Hello (BOB)") (lit "Hello") (lit "BOB")
           [lit "  "; lit " how are you  "]); reflexivity.
Defined.

(** X8.  No segment holds a newline, in its speaker or in its text, and
    no speaker holds a closing parenthesis. *)
Theorem segments_one_line (input : str) :
  Forall (fun seg =>
            ~ In LF (speaker seg) /\ ~ In RP (speaker seg) /\
            ~ In LF (text seg))
         (parseTranscript input).
Proof.
  apply (flush_oneLine (fold_left step (split_lines input) initialState)).
  apply fold_oneLine; [apply split_lines_no_LF|].
  split; [constructor | split; [discriminate | intros []]].
Qed.

(** X9.  Parsing reads back what was annotated: for turns whose text
    neither begins nor ends with white space and holds no line terminator
    and no opening parenthesis, and whose speaker is not empty and holds
    no closing parenthesis and no newline, the lines "text (speaker)"
    joined by newlines parse to these turns. *)
Theorem parse_render_roundtrip (segs : list Segment) :
  Forall plainTurn segs ->
  parseTranscript (join [LF] (map renderTurn segs)) = segs.
Proof.
  intros P. destruct segs as [|seg rest]; [reflexivity|].
  rewrite parseTranscript_join.
  - now apply parseLines_render.
  - discriminate.
  - apply Forall_map. eapply Forall_impl; [|exact P].
    exact renderTurn_no_LF.
Qed.

Lemma tightb_sound (s : str) : tightb s = true -> tight s.
Proof.
  unfold tightb, tight. intros H. apply andb_prop in H. destruct H as [H1 H2].
  destruct s as [|c r]; [discriminate|].
  destruct (rev (c :: r)) as [|d v] eqn:E; [discriminate|].
  apply negb_true_iff in H1, H2. now exists c, r, d, v.
Qed.

Lemma forallb_neq_not_In (c : char) (s : str) :
  forallb (fun x => negb (x =? c)%N) s = true -> ~ In c s.
Proof.
  intros F I. rewrite forallb_forall in F. apply F in I.
  now rewrite N.eqb_refl in I.
Qed.

Lemma plainTurnb_sound (seg : Segment) :
  plainTurnb seg = true -> plainTurn seg.
Proof.
  unfold plainTurnb, plainTurn. rewrite !andb_true_iff.
  intros (((((T & F) & NLP) & Hs) & Fs) & NLF).
  repeat split; trivial.
  - now apply tightb_sound.
  - now apply forallb_neq_not_In.
  - now apply truthy_not_nil.
  - now apply forallb_neq_not_In.
Qed.

(** Two turns, the second by a speaker named with a space. *)
Lemma parse_render_roundtrip_witness :
  parseTranscript (lit "Hello there (BOB)" ++ LF :: lit "Fine. (Mr S)")
  = [ {| speaker := lit "BOB"; text := lit "Hello there" |};
      {| speaker := lit "Mr S"; text := lit "Fine." |} ].
Proof.
  apply (parse_render_roundtrip
           [ {| speaker := lit "BOB"; text := lit "Hello there" |};
             {| speaker := lit "Mr S"; text := lit "Fine." |} ]).
  repeat constructor; apply plainTurnb_sound; reflexivity.
Defined.

(** X10.  On such a transcript the header and the body agree: the
    speakers extractSpeakers lists are the speakers of the segments of
    parseTranscript that hold no space character. *)
Theorem header_lists_segment_speakers (segs : list Segment) :
  Forall plainTurn segs ->
  forall x,
    In x (speakerList (join [LF] (map renderTurn segs))) <->
    (exists seg,
       In seg (parseTranscript (join [LF] (map renderTurn segs))) /\
       speaker seg = x) /\
    ~ In SP x.
Proof.
  intros P x.
  assert (R : parseTranscript (join [LF] (map renderTurn segs)) = segs).
  { destruct segs as [|seg rest]; [reflexivity|].
    rewrite parseTranscript_join.
    - now apply parseLines_render.
    - discriminate.
    - apply Forall_map. eapply Forall_impl; [|exact P].
      exact renderTurn_no_LF. }
  rewrite R, speakerList_In, (spans_render _ P), in_map_iff.
  split.
  - intros ((seg & E & I) & _ & N). split; trivial. now exists seg.
  - intros ((seg & I & E) & N). repeat split; trivial.
    + now exists seg.
    + rewrite Forall_forall in P. destruct (P seg I) as (_ & _ & _ & H & _).
      now rewrite <- E.
Qed.

(** BOB is listed, "Mr S" is a speaker of the body and is not. *)
Lemma header_lists_segment_speakers_witness :
  In (lit "BOB")
     (speakerList (lit "Hello there (BOB)" ++ LF :: lit "Fine. (Mr S)")) /\
  ~ In (lit "Mr S")
     (speakerList (lit "Hello there (BOB)" ++ LF :: lit "Fine. (Mr S)")).
Proof.
  assert (P : Forall plainTurn
                [ {| speaker := lit "BOB"; text := lit "Hello there" |};
                  {| speaker := lit "Mr S"; text := lit "Fine." |} ]).
  { repeat constructor; apply plainTurnb_sound; reflexivity. }
  split.
  - apply (header_lists_segment_speakers _ P (lit "BOB")). split.
    + eexists. split; [left; reflexivity | reflexivity].
    + vm_compute. intuition discriminate.
  - intros I. apply (header_lists_segment_speakers _ P (lit "Mr S")) in I.
    destruct I as [_ N]. apply N. vm_compute. auto 10.
Defined.

(** X11.  After a text in which no parenthesis is left open the scan
    starts afresh: the speakers found in the text followed by another are
    those found in the one or in the other. *)
Theorem speakerList_app_closed (a b : str) :
  open_from false a = false ->
  forall x,
    In x (speakerList (a ++ b)) <->
    In x (speakerList a) \/ In x (speakerList b).
Proof.
  intros H x. rewrite !speakerList_In.
  rewrite (spans_app_closed a b None H), in_app_iff. tauto.
Qed.

(** "x (A) " is closed, so the speakers of "x (A) (B)" are A and B. *)
Lemma speakerList_app_closed_witness :
  In (lit "B") (speakerList (lit "x (A) " ++ lit "(B)")).
Proof.
  apply (speakerList_app_closed (lit "x (A) ") (lit "(B)")).
  - reflexivity.
  - right. vm_compute. now left.
Defined.

(** ** The transcribe command: the effects of a run *)

Lemma callback_effects (w : Node) (fileName : str) (tr : list Effect) :
  callback w fileName tr = (tr ++ callbackEffects w fileName, Continue tt).
Proof.
  unfold callback, callbackEffects.
  destruct (execError w) as [m|]; [reflexivity|].
  unfold bind, when, ret, console_log, effect.
  destruct (truthy (execStderr w)); simpl;
    now rewrite <- ?app_assoc.
Qed.

(** The effects of a run, in order. *)
Lemma trace_effects (w : Node) : trace w = setupEffects w ++ runEffects w.
Proof.
  unfold trace, transcribe.
  unfold bind at 1.
  unfold script, setupEffects, runEffects, listedFiles.
  unfold bind, when, ret, console_log, console_error, mkdirSync, effect,
    process_exit.
  destruct (audioDirExists w), (transcriptsDirExists w); simpl;
    (destruct (argv2 w) as [[|c n]|]; simpl; [reflexivity | | reflexivity]);
    (destruct (audioFileExists w (c :: n)); simpl;
     [rewrite callback_effects; simpl; reflexivity |]);
    (destruct (filter (fun f => negb (startsWithDot f)) (audioDirEntries w))
       as [|f fs]; simpl; [reflexivity|]);
    unfold bind, console_log, effect; rewrite forEach_console_log; simpl;
    rewrite <- ?app_assoc; reflexivity.
Qed.

Lemma exitCode_cases (w : Node) :
  exitCode w = if argumentGiven w && audioFilePresent w then 0%N else 1%N.
Proof.
  unfold exitCode, transcribe, bind.
  destruct (script_result w [])
    as [tr1 [(G & fileName & E1) | (G & E1)]]; rewrite E1, G.
  - now rewrite callback_effects.
  - reflexivity.
Qed.

Lemma In_setupEffects (w : Node) (e : Effect) :
  In e (setupEffects w) <->
  (audioDirExists w = false /\
   (e = MkdirSync AudioDir \/ e = Print ConsoleLog CreatedAudioDir)) \/
  (transcriptsDirExists w = false /\
   (e = MkdirSync TranscriptsDir \/
    e = Print ConsoleLog CreatedTranscriptsDir)).
Proof.
  unfold setupEffects.
  destruct (audioDirExists w), (transcriptsDirExists w); simpl;
    intuition (discriminate || auto).
Qed.

Lemma In_callbackEffects_exec (w : Node) (fileName n : str) :
  ~ In (ExecWhisper n) (callbackEffects w fileName).
Proof.
  unfold callbackEffects.
  destruct (execError w), (truthy (execStderr w)); simpl;
    intuition discriminate.
Qed.

Lemma In_map_FileEntry (e : Effect) (fs : list str) :
  In e (map (fun f => Print ConsoleLog (FileEntry f)) fs) <->
  exists f, e = Print ConsoleLog (FileEntry f) /\ In f fs.
Proof.
  rewrite in_map_iff. split; intros (f & H1 & H2); exists f; auto.
Qed.

(** X12.  Whisper is started on the file named on the command line, and
    only when that name is given, is not empty and the file is in the
    audio folder; the exit code is 0 exactly for the runs that start
    it. *)
Theorem whisper_started_iff (w : Node) :
  (forall n,
     In (ExecWhisper n) (trace w) <->
     argv2 w = Some n /\ n <> [] /\ audioFileExists w n = true) /\
  (exitCode w = 0%N <-> exists n, In (ExecWhisper n) (trace w)).
Proof.
  assert (X : forall n,
             In (ExecWhisper n) (trace w) <->
             argv2 w = Some n /\ n <> [] /\ audioFileExists w n = true).
  { intros n. rewrite trace_effects, in_app_iff, In_setupEffects.
    unfold runEffects.
    destruct (argv2 w) as [[|c m]|]; simpl.
    - split; [intuition discriminate | intros ([= <-] & H & _); contradiction].
    - destruct (audioFileExists w (c :: m)) eqn:E; simpl.
      + pose proof (In_callbackEffects_exec w (basenameNoExt w (c :: m)) n).
        split.
        * intros [[[_ [H1|H1]] | [_ [H1|H1]]]
                 | [H1 | [H1 | [H1 | [H1 | [H1 | H1]]]]]];
            try discriminate; try contradiction.
          injection H1 as <-. repeat split; trivial. discriminate.
        * intros ([= <-] & _ & _). right. do 4 right. now left.
      + split.
        * intros [[[_ [H1|H1]] | [_ [H1|H1]]] | [H1 | [H1 | H1]]];
            try discriminate.
          apply in_app_or in H1. destruct H1 as [H1 | [H1 | []]];
            try discriminate.
          destruct (listedFiles w); simpl in H1.
          -- destruct H1 as [H1 | []]. discriminate.
          -- destruct H1 as [H1 | [H1 | H1]]; try discriminate.
             apply In_map_FileEntry in H1. destruct H1 as (f & H1 & _).
             discriminate.
        * intros ([= <-] & _ & H). congruence.
    - split; [intuition discriminate | intros (H & _); discriminate]. }
  split; [exact X|].
  rewrite exitCode_cases. unfold argumentGiven, audioFilePresent.
  destruct (argv2 w) as [[|c m]|] eqn:A; simpl.
  - split; [discriminate|]. intros (n & H). apply X in H.
    destruct H as ([= <-] & H & _). contradiction.
  - destruct (audioFileExists w (c :: m)) eqn:E.
    + split; trivial. intros _. exists (c :: m). apply X.
      repeat split; trivial. discriminate.
    + split; [discriminate|]. intros (n & H). apply X in H.
      destruct H as ([= <-] & _ & H). congruence.
  - split; [discriminate|]. intros (n & H). apply X in H.
    destruct H as (H & _). discriminate.
Qed.

Lemma In_callbackEffects_other (w : Node) (fileName : str) (e : Effect) :
  In e (callbackEffects w fileName) ->
  (forall d, e <> MkdirSync d) /\
  (forall f, e <> Print ConsoleLog (FileEntry f)).
Proof.
  unfold callbackEffects.
  destruct (execError w), (truthy (execStderr w)); simpl;
    intros H; split; intros x ->; intuition discriminate.
Qed.

(** X13.  The files shown as available are the entries of the audio
    folder whose name does not begin with a dot, and they are shown only
    when a name was given and that file is not in the folder. *)
Theorem listed_files_iff (w : Node) (f : str) :
  In (Print ConsoleLog (FileEntry f)) (trace w) <->
  argumentGiven w = true /\ audioFilePresent w = false /\
  In f (audioDirEntries w) /\ startsWithDot f = false.
Proof.
  rewrite trace_effects, in_app_iff, In_setupEffects.
  unfold runEffects, argumentGiven, audioFilePresent.
  destruct (argv2 w) as [[|c m]|]; simpl.
  - intuition discriminate.
  - destruct (audioFileExists w (c :: m)); simpl.
    + split; [|intuition discriminate].
      intros [[[_ [H|H]] | [_ [H|H]]]
             | [H | [H | [H | [H | [H | H]]]]]]; try discriminate.
      apply In_callbackEffects_other in H. destruct H as [_ H].
      now contradiction (H f).
    + assert (L : In f (listedFiles w) <->
                  In f (audioDirEntries w) /\ startsWithDot f = false).
      { unfold listedFiles. rewrite filter_In, negb_true_iff. tauto. }
      rewrite <- L. split.
      * intros [[[_ [H|H]] | [_ [H|H]]] | [H | [H | H]]]; try discriminate.
        apply in_app_or in H. destruct H as [H | [H | []]];
          try discriminate.
        destruct (listedFiles w) as [|g gs]; simpl in H.
        -- destruct H as [H | []]. discriminate.
        -- destruct H as [H | H]; [discriminate|].
           change (In (Print ConsoleLog (FileEntry f))
                      (map (fun f => Print ConsoleLog (FileEntry f)) (g :: gs)))
             in H.
           apply In_map_FileEntry in H. destruct H as (f' & [= ->] & H).
           repeat split; trivial.
      * intros (_ & _ & H). right. do 2 right. apply in_or_app. left.
        destruct (listedFiles w) as [|g gs]; [contradiction|].
        right.
        exact (in_map (fun f => Print ConsoleLog (FileEntry f)) _ _ H).
  - intuition discriminate.
Qed.

(** A folder with a hidden file and a recording, and a wrong name. *)
Lemma listed_files_iff_witness :
  let w := {| argv2 := Some (lit "x.mp3");
              audioDirExists := true; transcriptsDirExists := true;
              audioFileExists := fun _ => false;
              audioDirEntries := [lit ".DS_Store"; lit "talk.mp3"];
              basenameNoExt := fun _ => lit "x";
              execError := None;
              execStdout := []; execStderr := [] |} in
  In (Print ConsoleLog (FileEntry (lit "talk.mp3"))) (trace w) /\
  ~ In (Print ConsoleLog (FileEntry (lit ".DS_Store"))) (trace w).
Proof.
  intros w. split.
  - apply (listed_files_iff w (lit "talk.mp3")).
    repeat split; try reflexivity. right. now left.
  - intros H. apply (listed_files_iff w (lit ".DS_Store")) in H.
    destruct H as (_ & _ & _ & H). discriminate H.
Defined.

(** X14.  Each of the two folders is created exactly when it does not
    exist, whatever the command line: a run that ends on the usage error
    has created them all the same. *)
Theorem folders_created_iff (w : Node) :
  (In (MkdirSync AudioDir) (trace w) <-> audioDirExists w = false) /\
  (In (MkdirSync TranscriptsDir) (trace w) <->
   transcriptsDirExists w = false).
Proof.
  assert (R : forall d, ~ In (MkdirSync d) (runEffects w)).
  { intros d. unfold runEffects.
    destruct (argv2 w) as [[|c m]|]; simpl; try (intuition discriminate).
    destruct (audioFileExists w (c :: m)); simpl.
    - intros [H | [H | [H | [H | [H | H]]]]]; try discriminate.
      apply In_callbackEffects_other in H. destruct H as [H _].
      now contradiction (H d).
    - intros [H | [H | H]]; try discriminate.
      apply in_app_or in H. destruct H as [H | [H | []]]; try discriminate.
      destruct (listedFiles w) as [|g gs]; simpl in H.
      + destruct H as [H | []]. discriminate.
      + destruct H as [H | [H | H]]; try discriminate.
        apply In_map_FileEntry in H. destruct H as (f' & H & _).
        discriminate. }
  rewrite trace_effects, !in_app_iff, !In_setupEffects.
  split; split.
  - intros [[[H _] | [_ [H|H]]] | H]; trivial; try discriminate.
    now apply R in H.
  - intros H. left. left. auto.
  - intros [[[_ [H|H]] | [H _]] | H]; trivial; try discriminate.
    now apply R in H.
  - intros H. left. right. auto.
Qed.

(** X15.  The closing report: "Transcription complete" is printed exactly
    when whisper was started and reported no error, and the failure
    message exactly when it was started and reported that error. *)
Theorem closing_report_iff (w : Node) :
  (In (Print ConsoleLog TranscriptionComplete) (trace w) <->
   argumentGiven w = true /\ audioFilePresent w = true /\
   execError w = None) /\
  (forall message,
     In (Print ConsoleError (TranscriptionFailed message)) (trace w) <->
     argumentGiven w = true /\ audioFilePresent w = true /\
     execError w = Some message).
Proof.
  split; [|intros message];
    rewrite trace_effects, in_app_iff, In_setupEffects;
    unfold runEffects, callbackEffects, argumentGiven, audioFilePresent;
    (destruct (argv2 w) as [[|c m]|]; simpl; [intuition discriminate | |
       intuition discriminate]);
    (destruct (audioFileExists w (c :: m)); simpl;
     [ destruct (execError w) as [e|], (truthy (execStderr w)); simpl;
       intuition (discriminate || congruence)
     | split; [|intuition discriminate];
       intros [[[_ [H|H]] | [_ [H|H]]] | [H | [H | H]]]; try discriminate;
       apply in_app_or in H; destruct H as [H | [H | []]]; try discriminate;
       destruct (listedFiles w) as [|g gs]; simpl in H;
       [ destruct H as [H | []]; discriminate
       | destruct H as [H | [H | H]]; try discriminate;
         apply In_map_FileEntry in H; destruct H as (f & H & _);
         discriminate ] ]).
Qed.

(** ** The document: what it keeps *)

Lemma segmentParagraph_injective (a b : Segment) :
  segmentParagraph a = segmentParagraph b -> a = b.
Proof.
  unfold segmentParagraph, runsParagraph, boldRun, plainRun.
  intros [= E1 E2]. destruct a, b. simpl in *.
  change (lit ":" ++ [TAB]) with [58%N; TAB] in E1.
  apply app_inv_tail in E1. now subst.
Qed.

Lemma map_segmentParagraph_injective (a b : list Segment) :
  map segmentParagraph a = map segmentParagraph b -> a = b.
Proof.
  revert b. induction a as [|x a IH]; intros [|y b] E;
    simpl in E; try discriminate; trivial.
  remember (segmentParagraph x) as px eqn:Ex.
  remember (segmentParagraph y) as py eqn:Ey.
  injection E as -> E2. subst.
  f_equal; [now apply segmentParagraph_injective | auto].
Qed.

(** X17.  The document keeps what it was built from: two documents are
    equal only when they were built from the same title, speaker list,
    duration and segments. *)
Theorem doc_injective (b1 s1 d1 b2 s2 d2 : str) (segs1 segs2 : list Segment) :
  doc b1 s1 d1 segs1 = doc b2 s2 d2 segs2 ->
  b1 = b2 /\ s1 = s2 /\ d1 = d2 /\ segs1 = segs2.
Proof.
  intros E.
  pose proof (f_equal doc_header E) as Eh.
  pose proof (f_equal doc_children E) as Ec.
  unfold doc in Eh, Ec. cbn [doc_header doc_children] in Eh, Ec.
  injection Eh as -> ->.
  apply app_eq_length in Ec.
  - destruct Ec as [Em Et].
    apply map_segmentParagraph_injective in Em.
    injection Et as Ed.
    apply app_inv_tail in Ed.
    now repeat split.
  - apply (f_equal (@List.length Paragraph)) in Ec.
    rewrite !length_app in Ec. simpl in Ec. lia.
Qed.

(** Two documents that are the same document. *)
Lemma doc_injective_witness :
  lit "Talk" = lit "Talk" /\ lit "A, B" = lit "A, B" /\
  lit "10" = lit "10" /\ @nil Segment = [].
Proof.
  exact (doc_injective (lit "Talk") (lit "A, B") (lit "10")
           (lit "Talk") (lit "A, B") (lit "10") [] [] eq_refl).
Defined.

(** ** The format command *)

Lemma startsWith_iff (p s : str) :
  startsWith p s = true <-> exists b, s = p ++ b.
Proof.
  revert s. induction p as [|x p IH]; intros s; simpl.
  - split; trivial. intros _. now exists s.
  - destruct s as [|y s].
    + split; [discriminate | intros (b & E); discriminate E].
    + rewrite andb_true_iff, N.eqb_eq, IH. split.
      * intros (-> & b & ->). now exists b.
      * intros (b & [= -> ->]). split; trivial. now exists b.
Qed.

Lemma skipn_prefix (p b : str) : skipn (List.length p) (p ++ b) = b.
Proof. induction p; simpl; trivial. Qed.

Lemma removeFirst_occurrence (pat a b : str) :
  (forall a' b', a ++ pat ++ b = a' ++ pat ++ b' ->
                 List.length a <= List.length a') ->
  removeFirst pat (a ++ pat ++ b) = a ++ b.
Proof.
  induction a as [|c a IH]; intros Min.
  - simpl app. destruct (pat ++ b) as [|y s] eqn:E.
    + apply app_eq_nil in E. destruct E as [_ ->]. reflexivity.
    + simpl. rewrite <- E.
      rewrite (proj2 (startsWith_iff pat (pat ++ b))) by now exists b.
      apply skipn_prefix.
  - simpl. destruct (startsWith pat (c :: a ++ pat ++ b)) eqn:S.
    + apply startsWith_iff in S. destruct S as (b' & E).
      specialize (Min [] b' E). simpl in Min. lia.
    + f_equal. apply IH. intros a' b' E.
      specialize (Min (c :: a') b'). simpl in Min.
      rewrite E in Min. specialize (Min eq_refl). lia.
Qed.

Lemma removeFirst_none (pat s : str) :
  (forall a b, s <> a ++ pat ++ b) -> removeFirst pat s = s.
Proof.
  induction s as [|c s IH]; intros H; simpl; trivial.
  destruct (startsWith pat (c :: s)) eqn:S.
  - apply startsWith_iff in S. destruct S as (b & E).
    now contradiction (H [] b).
  - f_equal. apply IH. intros a b E. apply (H (c :: a) b).
    simpl. now rewrite E.
Qed.

(** X18.  [baseFilename] is the name without its first " - notes": a
    name in which " - notes" occurs loses the first occurrence and nothing
    else, and a name in which it does not occur is kept as it is. *)
Theorem removeFirst_spec (pat s : str) :
  (forall a b,
     s = a ++ pat ++ b ->
     (forall a' b', s = a' ++ pat ++ b' ->
                    List.length a <= List.length a') ->
     removeFirst pat s = a ++ b) /\
  ((forall a b, s <> a ++ pat ++ b) -> removeFirst pat s = s).
Proof.
  split.
  - intros a b -> Min. now apply removeFirst_occurrence.
  - apply removeFirst_none.
Qed.

(** A name in which " - notes" occurs twice. *)
Lemma removeFirst_spec_witness :
  removeFirst (lit " - notes") (lit "Podcast - notes - notes")
  = lit "Podcast - notes".
Proof.
  refine (proj1 (removeFirst_spec (lit " - notes")
                   (lit "Podcast - notes - notes"))
            (lit "Podcast") (lit " - notes") eq_refl _).
  intros a' b' E.
  do 7 (destruct a' as [|? a']; [vm_compute in E; discriminate E|]).
  simpl. lia.
Defined.

Lemma formatGmr_usage (w : FormatNode) :
  given (fmt_argv2 w) && given (fmt_argv3 w) = false ->
  formatGmr w
  = ([ FormatPrint ConsoleError FormatUsage;
       FormatPrint ConsoleLog FormatExample ], 1%N).
Proof.
  unfold formatGmr, formatScript, given.
  destruct (fmt_argv2 w) as [[|c f]|], (fmt_argv3 w) as [[|e u]|];
    simpl; intros H; try discriminate H; reflexivity.
Qed.

Lemma formatGmr_run (w : FormatNode) (inputFile duration : str) :
  fmt_argv2 w = Some inputFile -> inputFile <> [] ->
  fmt_argv3 w = Some duration -> duration <> [] ->
  formatGmr w = formatRun w inputFile duration.
Proof.
  intros A2 H2 A3 H3.
  destruct inputFile as [|c f]; [contradiction|].
  destruct duration as [|e u]; [contradiction|].
  unfold formatGmr, formatScript, formatRun, packAndWrite, builtDocument,
    fmt_throw.
  rewrite A2, A3.
  unfold fmt_bind, fmt_when, fmt_ret, fmt_log, fmt_error, fmt_effect, fmt_exit.
  destruct (formattedDirExists w), (inputFileExists w (c :: f)); simpl;
    try reflexivity;
    destruct (readFile w (c :: f)) as [content|err0]; simpl;
    try reflexivity;
    destruct (packError w _) as [err|]; simpl; try reflexivity;
    destruct (writeError w _) as [err|]; simpl; reflexivity.
Qed.

Lemma given_Some (arg : option str) :
  given arg = true <-> exists a, arg = Some a /\ a <> [].
Proof.
  unfold given. destruct arg as [[|c a]|]; simpl; split;
    try discriminate; trivial.
  - intros (a & [= <-] & H). contradiction.
  - intros _. exists (c :: a). split; [trivial | discriminate].
  - intros (a & H & _). discriminate.
Qed.

(** The run of the format command, by cases. *)
Lemma formatGmr_cases (w : FormatNode) :
  (given (fmt_argv2 w) && given (fmt_argv3 w) = false /\
   formatGmr w
   = ([ FormatPrint ConsoleError FormatUsage;
        FormatPrint ConsoleLog FormatExample ], 1%N)) \/
  (exists inputFile duration,
     fmt_argv2 w = Some inputFile /\ inputFile <> [] /\
     fmt_argv3 w = Some duration /\ duration <> [] /\
     formatGmr w = formatRun w inputFile duration).
Proof.
  destruct (given (fmt_argv2 w) && given (fmt_argv3 w)) eqn:G.
  - right. apply andb_prop in G. destruct G as [G2 G3].
    apply given_Some in G2, G3.
    destruct G2 as (i & A2 & H2), G3 as (d & A3 & H3).
    exists i, d. repeat split; trivial. now apply formatGmr_run.
  - left. split; trivial. now apply formatGmr_usage.
Qed.

Lemma formatRun_exit (w : FormatNode) (inputFile duration : str) :
  snd (formatRun w inputFile duration) = 0%N \/
  snd (formatRun w inputFile duration) = 1%N.
Proof.
  unfold formatRun.
  destruct (inputFileExists w inputFile); [|now right].
  destruct (readFile w inputFile); [|now right].
  destruct (packError w _); [now right|].
  destruct (writeError w _); [now right | now left].
Qed.

Lemma In_formatSetup (w : FormatNode) (e : FormatEffect) :
  In e (if formattedDirExists w then []
        else [MkdirFormatted; FormatPrint ConsoleLog CreatedFormattedDir]) ->
  e = MkdirFormatted \/ e = FormatPrint ConsoleLog CreatedFormattedDir.
Proof.
  destruct (formattedDirExists w); simpl; intuition.
Qed.

(** X19.  The format command ends with exit code 0 exactly when both
    arguments are given and not empty, the input file is there and
    [readFileSync] returns its content, and neither the packer nor the
    write of the file fails; in every other case, an exception of
    [readFileSync] among them, the exit code is 1. *)
Theorem format_exit_code (w : FormatNode) :
  (formatExitCode w = 0%N <-> formatSucceeds w) /\
  (formatExitCode w = 0%N \/ formatExitCode w = 1%N).
Proof.
  unfold formatExitCode, formatSucceeds, formatSucceedsWith.
  destruct (formatGmr_cases w)
    as [[G E] | (i & d & A2 & H2 & A3 & H3 & E)]; rewrite E.
  - split; [|now right]. split; [discriminate|].
    intros (i & d & c & A2 & H2 & A3 & H3 & _).
    rewrite (proj2 (given_Some _)) in G by now exists i.
    rewrite (proj2 (given_Some _)) in G by now exists d.
    discriminate G.
  - split; [|apply formatRun_exit].
    unfold formatRun. split.
    + intros H.
      destruct (inputFileExists w i) eqn:X; [|discriminate H].
      destruct (readFile w i) as [content|err0] eqn:R; [|discriminate H].
      destruct (packError w (builtDocument w i d content)) eqn:P;
        [discriminate H|].
      destruct (writeError w (baseFilename w i ++ lit ".docx")) eqn:W;
        [discriminate H|].
      exists i, d, content. now repeat split.
    + intros (i' & d' & c' & A2' & _ & A3' & _ & X & R & P & W).
      rewrite A2 in A2'. rewrite A3 in A3'.
      injection A2' as <-. injection A3' as <-.
      now rewrite X, R, P, W.
Qed.

(** X20.  A file is written exactly in the runs that succeed; it is named
    after [baseFilename] with ".docx" and holds the document built from
    the speakers extractSpeakers finds in the content read and the
    segments parseTranscript finds in it.  When [readFileSync] throws,
    nothing is written. *)
Theorem format_writes (w : FormatNode) (name : str) (d : Document) :
  In (WriteDocx name d) (formatTrace w) <->
  exists inputFile duration content,
    formatSucceedsWith w inputFile duration content /\
    name = baseFilename w inputFile ++ lit ".docx" /\
    d = doc (baseFilename w inputFile) (extractSpeakers content) duration
            (parseTranscript content).
Proof.
  unfold formatTrace, formatSucceedsWith.
  destruct (formatGmr_cases w)
    as [[G E] | (i & du & A2 & H2 & A3 & H3 & E)]; rewrite E.
  - simpl. split; [intuition discriminate|].
    intros (i & du & c & (A2 & H2 & A3 & H3 & _) & _).
    rewrite (proj2 (given_Some _)) in G by now exists i.
    rewrite (proj2 (given_Some _)) in G by now exists du.
    discriminate G.
  - unfold formatRun. split.
    + intros H.
      destruct (inputFileExists w i) eqn:X.
      * destruct (readFile w i) as [content|err0] eqn:R.
        -- destruct (packError w (builtDocument w i du content))
             as [err|] eqn:P;
             [|destruct (writeError w (baseFilename w i ++ lit ".docx"))
                 as [err|] eqn:W];
             simpl in H; apply in_app_or in H; destruct H as [H | H];
             try (apply In_formatSetup in H; destruct H as [H|H];
                  discriminate H);
             simpl in H; try (intuition discriminate).
           destruct H as [H | [H | [H | [H | [H | [H | H]]]]]];
             try discriminate H.
           ++ injection H as <- <-. exists i, du, content.
              now repeat split.
           ++ exfalso. intuition discriminate.
        -- simpl in H. apply in_app_or in H. destruct H as [H | H].
           ++ apply In_formatSetup in H. destruct H as [H|H]; discriminate H.
           ++ simpl in H. intuition discriminate.
      * simpl in H. apply in_app_or in H. destruct H as [H | [H | []]];
          [apply In_formatSetup in H; destruct H as [H|H]; discriminate H
          | discriminate H].
    + intros (i' & du' & c' & (A2' & _ & A3' & _ & X & R & P & W) & -> & ->).
      rewrite A2 in A2'. rewrite A3 in A3'.
      injection A2' as <-. injection A3' as <-.
      rewrite X, R, P, W. simpl.
      apply in_or_app. right. do 5 right. left. reflexivity.
Qed.

(** The argument "." names a folder: [existsSync] is true and
    [readFileSync] throws.  The exit code is 1 and nothing is written. *)
Lemma format_read_throws_example :
  let w := {| fmt_argv2 := Some (lit "."); fmt_argv3 := Some (lit "10");
              formattedDirExists := true;
              inputFileExists := fun _ => true;
              readFile := fun _ => ReadThrows (lit "EISDIR");
              fmt_basename := fun f => f;
              packError := fun _ => None;
              writeError := fun _ => None |} in
  formatGmr w
  = ([ FormatPrint ConsoleLog ReadingTranscript;
       UncaughtException (lit "EISDIR") ], 1%N).
Proof. reflexivity. Qed.

(** X21.  The output folder is created exactly when both arguments are
    given and the folder does not exist: a run that ends on the usage
    error creates nothing. *)
Theorem format_mkdir (w : FormatNode) :
  In MkdirFormatted (formatTrace w) <->
  given (fmt_argv2 w) = true /\ given (fmt_argv3 w) = true /\
  formattedDirExists w = false.
Proof.
  unfold formatTrace.
  destruct (formatGmr_cases w)
    as [[G E] | (i & du & A2 & H2 & A3 & H3 & E)]; rewrite E.
  - simpl. split; [intuition discriminate|].
    intros (G2 & G3 & _). rewrite G2, G3 in G. discriminate G.
  - rewrite (proj2 (given_Some (fmt_argv2 w))) by now exists i.
    rewrite (proj2 (given_Some (fmt_argv3 w))) by now exists du.
    unfold formatRun.
    destruct (formattedDirExists w); simpl.
    + split; [|intuition discriminate].
      destruct (inputFileExists w i); [|simpl; intuition discriminate].
      destruct (readFile w i); [|simpl; intuition discriminate].
      destruct (packError w _); [simpl; intuition discriminate|].
      destruct (writeError w _); simpl; intuition discriminate.
    + split; [now repeat split|]. intros _.
      destruct (inputFileExists w i); [|simpl; now left].
      destruct (readFile w i); [|simpl; now left].
      destruct (packError w _); [simpl; now left|].
      destruct (writeError w _); simpl; now left.
Qed.
